(** * td/utils/HazardPointers.h: the hazard-pointer registry

    A shallow embedding of [td::HazardPointers<T, MaxPointersN>] and of its
    nested [Holder], followed by the properties of the registry.

    Pointers [T*] are opaque addresses that are only ever compared, never
    dereferenced; [std::vector] and [std::array] are lists; the registry is
    threaded through every member function as an explicit state.  The
    padding members ([pad], [pad2]) only shape the memory layout and are
    left out. *)

From Stdlib Require Import NArith Lia.
From Equations Require Import Equations.
From stdpp Require Import base tactics option list numbers.

Set Default Proof Using "Type".

(** ** Pointers and outcomes *)

(** [T*]: an address; [nullptr] is address 0. *)
Definition ptr : Type := N.
Definition nullptr : ptr := 0%N.

(** [p == q] on raw pointers. *)
Definition ptr_eqb (p q : ptr) : bool := N.eqb p q.

(** [if (ptr)]: a pointer converts to [true] when it is not null. *)
Definition to_bool (p : ptr) : bool := negb (ptr_eqb p nullptr).

(** What a call can end in.  [OutOfBounds] stands for [operator[]] of a
    [std::array] used past the end of the array: the operator performs no
    check of its own, so no assertion fires there. *)
Inductive outcome (A : Type) : Type :=
| Ok (a : A)
| CheckFailed
| OutOfBounds.
Arguments Ok {A} a.
Arguments CheckFailed {A}.
Arguments OutOfBounds {A}.

Global Instance outcome_ret : MRet outcome := fun A a => Ok a.
Global Instance outcome_bind : MBind outcome := fun A B k m =>
  match m with
  | Ok a => k a
  | CheckFailed => CheckFailed
  | OutOfBounds => OutOfBounds
  end.

(** Modelled from the spec: the [CHECK] macro, which td/utils/common.h
    declares and this header only uses.  The spec describes it as the
    fatal-assertion collaborator that fails with an invariant violation when
    a bounds precondition is violated. *)
Definition CHECK (cond : bool) : outcome unit :=
  if cond then Ok tt else CheckFailed.

(** ** The data model *)

(** [struct ThreadData]: the hazard cells of one thread and its retirement
    list ("stupid gc"). *)
Record ThreadData : Type := mkThreadData {
  hazard : list ptr;       (* std::array<std::atomic<T *>, MaxPointersN> *)
  to_delete : list ptr     (* std::vector<unique_ptr<T>> *)
}.

(** [class HazardPointers]. *)
Record HazardPointers : Type := mkHazardPointers {
  threads_ : list ThreadData   (* std::vector<ThreadData> *)
}.

(** [std::atomic<T *> &]: a reference to the cell [threads_[i].hazard[j]]. *)
Definition cell_ref : Type := nat * nat.

(** [hazard_ptr.load()]. *)
Definition load (c : cell_ref) (hp : HazardPointers) : option ptr :=
  match threads_ hp !! c.1 with
  | Some data => hazard data !! c.2
  | None => None
  end.

(** [hazard_ptr.store(v)]. *)
Definition store (c : cell_ref) (v : ptr) (hp : HazardPointers) : HazardPointers :=
  {| threads_ :=
       alter (fun data => {| hazard := <[c.2 := v]> (hazard data);
                             to_delete := to_delete data |})
             c.1 (threads_ hp) |}.

(** The cell a reference designates exists. *)
Definition valid_cell (c : cell_ref) (hp : HazardPointers) : Prop :=
  is_Some (load c hp).

(** [threads_[thread_id].to_delete], and its replacement by a new vector. *)
Definition to_delete_at (thread_id : nat) (hp : HazardPointers) : list ptr :=
  match threads_ hp !! thread_id with
  | Some data => to_delete data
  | None => []
  end.

Definition set_to_delete (thread_id : nat) (v : list ptr) (hp : HazardPointers)
  : HazardPointers :=
  {| threads_ :=
       alter (fun data => {| hazard := hazard data; to_delete := v |})
             thread_id (threads_ hp) |}.

(** ** Member functions *)

Section Registry.

(** The template parameter [int MaxPointersN = 1]. *)
Variable MaxPointersN : nat.

(** [explicit HazardPointers(size_t threads_n) : threads_(threads_n)].
    The vector constructor makes [threads_n] elements whose cells hold
    whatever [garbage] their storage starts with; the two nested loops then
    run [std::atomic_init(&ptr, nullptr)] on every cell. *)
Definition vector_ctor (garbage : nat -> nat -> ptr) (threads_n : nat)
  : list ThreadData :=
  (fun i => {| hazard := garbage i <$> seq 0 MaxPointersN; to_delete := [] |})
    <$> seq 0 threads_n.

Definition HazardPointers_ctor (garbage : nat -> nat -> ptr) (threads_n : nat)
  : HazardPointers :=
  {| threads_ :=
       (fun data => {| hazard := (fun _ => nullptr) <$> hazard data;
                       to_delete := to_delete data |})
         <$> vector_ctor garbage threads_n |}.

(** [get_hazard_ptr]: the thread id is CHECKed, the position is not. *)
Definition get_hazard_ptr (thread_id pos : nat) (hp : HazardPointers)
  : outcome cell_ref :=
  CHECK (bool_decide (thread_id < length (threads_ hp))) ;;
  match load (thread_id, pos) hp with
  | Some _ => Ok (thread_id, pos)
  | None => OutOfBounds
  end.

(** [is_protected]: two nested loops over all threads and all their cells,
    returning [true] at the first cell that holds [p]. *)
Definition is_protected (p : ptr) (hp : HazardPointers) : bool :=
  existsb (fun thread =>
             existsb (fun hazard_ptr => ptr_eqb hazard_ptr p) (hazard thread))
          (threads_ hp).

(** What one atomic access of [do_protect] does, in program order. *)
Inductive access : Type :=
| SourceLoad (v : ptr)                  (* to_protect.load() returned v *)
| HazardStore (c : cell_ref) (v : ptr). (* hazard_ptr.store(v) *)

(** [do_protect].  The source [to_protect] belongs to the caller's data
    structure and other threads may rewrite it at any time, so it is given
    by the values its successive loads return: [to_protect n] is what the
    [n]-th load sees.  [fuel] bounds the number of loop tests; [None] means
    the loop is still spinning when the fuel is spent. *)
Fixpoint do_protect_loop (fuel : nat) (hazard_ptr : cell_ref)
    (to_protect : nat -> ptr) (n : nat) (saved : ptr)
    (hp : HazardPointers) (log : list access)
  : option (ptr * HazardPointers * list access) :=
  match fuel with
  | O => None
  | S fuel' =>
      let to_save := to_protect n in
      if negb (ptr_eqb to_save saved) then
        do_protect_loop fuel' hazard_ptr to_protect (S n) to_save
                        (store hazard_ptr to_save hp)
                        (log ++ [SourceLoad to_save; HazardStore hazard_ptr to_save])
      else Some (saved, hp, log ++ [SourceLoad to_save])
  end.

Definition do_protect (fuel : nat) (hazard_ptr : cell_ref)
    (to_protect : nat -> ptr) (hp : HazardPointers)
  : option (ptr * HazardPointers * list access) :=
  do_protect_loop fuel hazard_ptr to_protect 0 nullptr hp [].

(** [do_clear]. *)
Definition do_clear (hazard_ptr : cell_ref) (hp : HazardPointers) : HazardPointers :=
  store hazard_ptr nullptr hp.

(** Matching on a value while keeping the equation that says where it
    came from. *)
Definition inspect {A : Type} (x : A) : {y : A | x = y} := exist _ x eq_refl.

(** The loop of [retire].  [it] is the iterator, as an index into
    [data.to_delete]; [erase(it)] removes that element and leaves the
    iterator on the next one; [it->reset()] runs the destructor of the
    object, which is recorded in [destroyed]. *)
Equations? retire_loop (thread_id it : nat) (hp : HazardPointers)
    (destroyed : list ptr) : HazardPointers * list ptr
  by wf (length (to_delete_at thread_id hp) - it) lt :=
  retire_loop thread_id it hp destroyed
    with inspect (to_delete_at thread_id hp !! it) := {
    | exist _ None _ => (hp, destroyed)
    | exist _ (Some p) Hp with inspect (is_protected p hp) => {
      | exist _ true _ => retire_loop thread_id (S it) hp destroyed
      | exist _ false _ =>
          retire_loop thread_id it
            (set_to_delete thread_id (delete it (to_delete_at thread_id hp)) hp)
            (destroyed ++ [p]) } }.
Proof.
  - apply lookup_lt_Some in Hp. lia.
  - pose proof (lookup_lt_Some _ _ _ Hp) as Hlt.
    unfold to_delete_at, set_to_delete in *. simpl.
    rewrite list_lookup_alter_eq.
    destruct (threads_ hp !! thread_id) as [data|]; simpl in *; [|lia].
    rewrite length_delete by eauto. lia.
Qed.

(** [retire]. *)
Definition retire (thread_id : nat) (p : ptr) (hp : HazardPointers)
  : outcome (HazardPointers * list ptr) :=
  CHECK (bool_decide (thread_id < length (threads_ hp))) ;;
  let hp1 :=
    if to_bool p
    then set_to_delete thread_id (to_delete_at thread_id hp ++ [p]) hp
    else hp in
  Ok (retire_loop thread_id 0 hp1 []).

(** The old interface. *)
Definition protect (fuel : nat) (thread_id pos : nat) (to_protect : nat -> ptr)
    (hp : HazardPointers)
  : outcome (option (ptr * HazardPointers * list access)) :=
  c ← get_hazard_ptr thread_id pos hp;
  Ok (do_protect fuel c to_protect hp).

Definition clear (thread_id pos : nat) (hp : HazardPointers)
  : outcome HazardPointers :=
  c ← get_hazard_ptr thread_id pos hp;
  Ok (do_clear c hp).

(** [to_delete_size_unsafe]. *)
Definition to_delete_size_unsafe (hp : HazardPointers) : nat :=
  foldl (fun res thread => res + length (to_delete thread)) 0 (threads_ hp).

(** ** [class Holder] *)

Record Holder : Type := mkHolder {
  hazard_ptr_ : cell_ref     (* std::atomic<T *> &hazard_ptr_ *)
}.

(** [get_holder]. *)
Definition get_holder (thread_id pos : nat) (hp : HazardPointers) : outcome Holder :=
  c ← get_hazard_ptr thread_id pos hp;
  Ok (mkHolder c).

(** [Holder::protect]. *)
Definition Holder_protect (fuel : nat) (h : Holder) (to_protect : nat -> ptr)
    (hp : HazardPointers) : option (ptr * HazardPointers * list access) :=
  do_protect fuel (hazard_ptr_ h) to_protect hp.

(** [Holder::clear]. *)
Definition Holder_clear (h : Holder) (hp : HazardPointers) : HazardPointers :=
  store (hazard_ptr_ h) nullptr hp.

(** [~Holder() { clear(); }]. *)
Definition Holder_dtor (h : Holder) (hp : HazardPointers) : HazardPointers :=
  Holder_clear h hp.

(** [Holder(Holder &&other) = default;  // TODO].  The defaulted move
    constructor initialises the reference member of the new object from the
    one of [other]; a reference cannot be reseated, so [other] stays bound
    to the same cell.  The result is the new object. *)
Definition Holder_move (other : Holder) : Holder :=
  {| hazard_ptr_ := hazard_ptr_ other |}.

End Registry.

(** ** Threads running side by side *)

(** The calls above run one at a time.  To follow several threads at once,
    each call is cut at its atomic accesses: a load of a source, a store
    into a hazard cell, a load of a hazard cell by [is_protected].  A thread
    is then at one of the program points below, and a schedule decides which
    thread takes the next step.  Thread [t] passes its own id as
    [thread_id], as the registry expects of its callers. *)

Inductive pc : Type :=
| Idle
  (* do_protect, at the loop test [(to_save = to_protect.load()) != saved] *)
| ProtectTest (hazard_ptr : cell_ref) (source : nat) (saved : ptr)
  (* do_protect, at [hazard_ptr.store(to_save)] *)
| ProtectStore (hazard_ptr : cell_ref) (source : nat) (to_save : ptr)
  (* retire, at the loop test [it != data.to_delete.end()] *)
| RetireLoop (it : nat)
  (* is_protected(p) called from retire with the iterator at [it], at the
     load of cell [j] of thread [i] *)
| Scanning (it : nat) (p : ptr) (i j : nat).

(** The shared memory: the registry, the atomic pointers of the client
    ([sources], by number), the objects destroyed so far, and where each
    thread stands. *)
Record state : Type := mkState {
  registry : HazardPointers;
  sources : nat -> ptr;
  destroyed : list ptr;
  pcs : list pc
}.

(** What a scheduled thread does: start a call when it is idle, or take the
    next step of the call it is in.  [WriteSource] is the client storing
    into one of its own atomic pointers. *)
Inductive action : Type :=
| CallProtect (pos : nat) (source : nat)
| CallClear (pos : nat)
| CallRetire (p : ptr)
| WriteSource (source : nat) (v : ptr)
| Continue.

(** What a step shows to an observer. *)
Inductive label : Type :=
| Silent
| Stored (t : nat) (c : cell_ref) (v : ptr)     (* t stored v into cell c *)
| Protected (t : nat) (c : cell_ref) (p : ptr)  (* protect on c returned p *)
| Checked (t : nat) (p : ptr) (c : cell_ref) (v : ptr)
    (* t, scanning for p, loaded cell c and read v *)
| Freed (t : nat) (p : ptr).                    (* t destroyed p *)

Definition set_pc (t : nat) (k : pc) (s : state) : state :=
  {| registry := registry s; sources := sources s;
     destroyed := destroyed s; pcs := <[t := k]> (pcs s) |}.

Definition set_registry (hp : HazardPointers) (s : state) : state :=
  {| registry := hp; sources := sources s;
     destroyed := destroyed s; pcs := pcs s |}.

Definition step (t : nat) (a : action) (s : state) : option (label * state) :=
  match a with
  | WriteSource source v =>
      Some (Silent,
            {| registry := registry s;
               sources := fun k => if decide (k = source) then v else sources s k;
               destroyed := destroyed s; pcs := pcs s |})
  | _ =>
    match pcs s !! t, a with
    | Some Idle, CallProtect pos source =>
        match get_hazard_ptr t pos (registry s) with
        | Ok c => Some (Silent, set_pc t (ProtectTest c source nullptr) s)
        | _ => None
        end
    | Some Idle, CallClear pos =>
        match get_hazard_ptr t pos (registry s) with
        | Ok c => Some (Stored t c nullptr,
                        set_registry (do_clear c (registry s)) s)
        | _ => None
        end
    | Some Idle, CallRetire p =>
        match CHECK (bool_decide (t < length (threads_ (registry s)))) with
        | Ok _ =>
            let hp1 :=
              if to_bool p
              then set_to_delete t (to_delete_at t (registry s) ++ [p]) (registry s)
              else registry s in
            Some (Silent, set_pc t (RetireLoop 0) (set_registry hp1 s))
        | _ => None
        end
    | Some (ProtectTest c source saved), Continue =>
        let to_save := sources s source in
        if negb (ptr_eqb to_save saved)
        then Some (Silent, set_pc t (ProtectStore c source to_save) s)
        else Some (Protected t c saved, set_pc t Idle s)
    | Some (ProtectStore c source to_save), Continue =>
        Some (Stored t c to_save,
              set_pc t (ProtectTest c source to_save)
                     (set_registry (store c to_save (registry s)) s))
    | Some (RetireLoop it), Continue =>
        match to_delete_at t (registry s) !! it with
        | None => Some (Silent, set_pc t Idle s)
        | Some p => Some (Silent, set_pc t (Scanning it p 0 0) s)
        end
    | Some (Scanning it p i j), Continue =>
        match threads_ (registry s) !! i with
        | None =>
            (* no cell held p: it->reset(); it = erase(it) *)
            Some (Freed t p,
                  {| registry :=
                       set_to_delete t (delete it (to_delete_at t (registry s)))
                                     (registry s);
                     sources := sources s;
                     destroyed := destroyed s ++ [p];
                     pcs := <[t := RetireLoop it]> (pcs s) |})
        | Some thread =>
            match hazard thread !! j with
            | None => Some (Silent, set_pc t (Scanning it p (S i) 0) s)
            | Some v =>
                if ptr_eqb v p
                then Some (Checked t p (i, j) v, set_pc t (RetireLoop (S it)) s)
                else Some (Checked t p (i, j) v, set_pc t (Scanning it p i (S j)) s)
            end
        end
    | _, _ => None
    end
  end.

(** A schedule is the list of the threads that step, in order, each with
    what it does.  [run] follows it and collects the labels; it is [None]
    when the schedule asks for a step that cannot be taken. *)
Fixpoint run (schedule : list (nat * action)) (s : state)
  : option (list label * state) :=
  match schedule with
  | [] => Some ([], s)
  | (t, a) :: rest =>
      match step t a s with
      | Some (l, s') =>
          match run rest s' with
          | Some (ls, s'') => Some (l :: ls, s'')
          | None => None
          end
      | None => None
      end
  end.

(** A fresh registry with all its threads idle. *)
Definition initial (MaxPointersN threads_n : nat) (garbage : nat -> nat -> ptr)
    (srcs : nat -> ptr) : state :=
  {| registry := HazardPointers_ctor MaxPointersN garbage threads_n;
     sources := srcs; destroyed := []; pcs := replicate threads_n Idle |}.

(** The cells [is_protected] has loaded when it stands at cell [j] of
    thread [i], in the order of the scan; with [i] the number of threads and
    [j = 0] these are all the cells. *)
Definition cells_before (MaxPointersN : nat) (i j : nat) : list cell_ref :=
  flat_map (fun i' => (fun j' => (i', j')) <$> seq 0 MaxPointersN) (seq 0 i)
  ++ ((fun j' => (i, j')) <$> seq 0 j).

Definition all_cells (MaxPointersN threads_n : nat) : list cell_ref :=
  cells_before MaxPointersN threads_n 0.

(** The checks thread [t] made, oldest first: the pointer it was scanning
    for, the cell it loaded and the value it read. *)
Definition checks_of (t : nat) (ls : list label) : list (ptr * cell_ref * ptr) :=
  omap (fun l => match l with
                 | Checked t' p c v => if decide (t' = t) then Some (p, c, v) else None
                 | _ => None
                 end) ls.

(** The checks of one scan for [p] that read the values [obs] in the cells
    they are paired with. *)
Definition scan_of (p : ptr) (obs : list (cell_ref * ptr))
  : list (ptr * cell_ref * ptr) :=
  (fun cv => (p, cv.1, cv.2)) <$> obs.

(** ** Notions used to state the properties *)

(** The retirement list as the loop of [retire] finds it: the old entries,
    followed by the new one when it is not null. *)
Definition pending (thread_id : nat) (p : ptr) (hp : HazardPointers) : list ptr :=
  to_delete_at thread_id hp ++ (if to_bool p then [p] else []).

(** The value of the local [saved] of [do_protect] when the loop test runs
    for the [n]-th time: null at first, afterwards what the load before
    returned. *)
Definition saved_at (to_protect : nat -> ptr) (n : nat) : ptr :=
  match n with
  | O => nullptr
  | S k => to_protect k
  end.

(** The accesses of a [do_protect] whose loop body runs [n] times: [n]
    rounds of load and publish, then the load that ends the loop. *)
Definition protect_accesses (hazard_ptr : cell_ref) (to_protect : nat -> ptr)
    (n : nat) : list access :=
  flat_map (fun k => [SourceLoad (to_protect k);
                      HazardStore hazard_ptr (to_protect k)]) (seq 0 n)
  ++ [SourceLoad (to_protect n)].

(** The cells after the stores of those [n] rounds. *)
Definition published (hazard_ptr : cell_ref) (to_protect : nat -> ptr)
    (n : nat) (hp : HazardPointers) : HazardPointers :=
  foldl (fun h k => store hazard_ptr (to_protect k) h) hp (seq 0 n).

(** Both bounds are guarded: on a registry whose threads have
    [MaxPointersN] cells each, a thread id or a slot index out of range
    makes [get_holder] and the old-interface [protect] and [clear] end in a
    failed CHECK. *)
Definition every_bound_is_checked (MaxPointersN : nat) : Prop :=
  forall (hp : HazardPointers) (thread_id pos fuel : nat) (to_protect : nat -> ptr),
    Forall (fun data => length (hazard data) = MaxPointersN) (threads_ hp) ->
    length (threads_ hp) <= thread_id \/ MaxPointersN <= pos ->
    get_holder thread_id pos hp = CheckFailed /\
    protect fuel thread_id pos to_protect hp = CheckFailed /\
    clear thread_id pos hp = CheckFailed.

(** No retirement list holds a null entry. *)
Definition no_null_entries (hp : HazardPointers) : Prop :=
  Forall (fun data => Forall (fun q => q <> nullptr) (to_delete data)) (threads_ hp).

(** The calls a client can make on a registry, and the registry each leaves
    behind when it returns ([None] when it does not: a failed CHECK, an
    access past the end of the cell array, a [protect] still spinning). *)
Inductive operation : Type :=
| OpRetire (thread_id : nat) (p : ptr)
| OpProtect (fuel thread_id pos : nat) (to_protect : nat -> ptr)
| OpClear (thread_id pos : nat)
| OpHolderProtect (fuel : nat) (h : Holder) (to_protect : nat -> ptr)
| OpHolderClear (h : Holder)
| OpPendingCount.

Definition perform (o : operation) (hp : HazardPointers) : option HazardPointers :=
  match o with
  | OpRetire thread_id p =>
      match retire thread_id p hp with
      | Ok (hp', _) => Some hp'
      | _ => None
      end
  | OpProtect fuel thread_id pos to_protect =>
      match protect fuel thread_id pos to_protect hp with
      | Ok (Some (_, hp', _)) => Some hp'
      | _ => None
      end
  | OpClear thread_id pos =>
      match clear thread_id pos hp with
      | Ok hp' => Some hp'
      | _ => None
      end
  | OpHolderProtect fuel h to_protect =>
      match Holder_protect fuel h to_protect hp with
      | Some (_, hp', _) => Some hp'
      | None => None
      end
  | OpHolderClear h => Some (Holder_clear h hp)
  | OpPendingCount => let _ := to_delete_size_unsafe hp in Some hp
  end.

Fixpoint perform_all (ops : list operation) (hp : HazardPointers)
  : option HazardPointers :=
  match ops with
  | [] => Some hp
  | o :: ops' =>
      match perform o hp with
      | Some hp' => perform_all ops' hp'
      | None => None
      end
  end.

(** Notions for the threads running side by side. *)

(** The registry keeps the shape its constructor gave it. *)
Definition well_shaped (MaxPointersN threads_n : nat) (s : state) : Prop :=
  length (threads_ (registry s)) = threads_n /\
  Forall (fun data => length (hazard data) = MaxPointersN) (threads_ (registry s)) /\
  length (pcs s) = threads_n.

(** When thread [t] is inside [is_protected], it has checked every cell
    before the one it stands at, and none of them held the pointer it scans
    for. *)
Definition scan_recorded (MaxPointersN threads_n : nat) (t : nat)
    (ls : list label) (s : state) : Prop :=
  forall it p i j,
    pcs s !! t = Some (Scanning it p i j) ->
    i <= threads_n /\ j <= MaxPointersN /\ (i = threads_n -> j = 0) /\
    exists pre obs,
      checks_of t ls = pre ++ scan_of p obs /\
      obs.*1 = cells_before MaxPointersN i j /\
      Forall (fun cv => cv.2 <> p) obs.

Definition scans_recorded (MaxPointersN threads_n : nat) (ls : list label)
    (s : state) : Prop :=
  forall t, scan_recorded MaxPointersN threads_n t ls s.

(** A scan for [p] has not gone past cell [c]. *)
Definition not_past (c : cell_ref) (p : ptr) (s : state) : Prop :=
  forall t it i j,
    pcs s !! t = Some (Scanning it p i j) ->
    i < c.1 \/ (i = c.1 /\ j <= c.2).

(** The cell a thread inside [do_protect] works on, with the pointer it
    has stored there (null before the first store and while a store is
    pending). *)
Definition protecting (k : pc) : option (cell_ref * ptr) :=
  match k with
  | ProtectTest c _ saved => Some (c, saved)
  | ProtectStore c _ _ => Some (c, nullptr)
  | _ => None
  end.

(** A thread inside [do_protect] works on a cell of its own, and once it
    has stored a pointer the cell holds it. *)
Definition protects_own_cell (s : state) : Prop :=
  forall t k c saved,
    pcs s !! t = Some k ->
    protecting k = Some (c, saved) ->
    c.1 = t /\ valid_cell c (registry s) /\
    (saved <> nullptr -> load c (registry s) = Some saved).

(** [destroyed] lists the pointers of the [Freed] steps. *)
Definition freed_of (ls : list label) : list ptr :=
  omap (fun l => match l with Freed _ p => Some p | _ => None end) ls.

(** How the scans of thread [t] ended, oldest first: [(q, true)] when a
    check found [q] in the cell it loaded, [(q, false)] when [t] destroyed
    [q]. *)
Definition verdicts (t : nat) (ls : list label) : list (ptr * bool) :=
  omap (fun l => match l with
                 | Checked t' q _ v =>
                     if decide (t' = t)
                     then (if ptr_eqb v q then Some (q, true) else None)
                     else None
                 | Freed t' q => if decide (t' = t) then Some (q, false) else None
                 | _ => None
                 end) ls.

Definition kept_of (vs : list (ptr * bool)) : list ptr :=
  omap (fun x : ptr * bool => if x.2 then Some x.1 else None) vs.

Definition swept_of (vs : list (ptr * bool)) : list ptr :=
  omap (fun x : ptr * bool => if x.2 then None else Some x.1) vs.

(** Where a thread inside [retire] stands when it has kept [kept] and has
    still to look at [rest]. *)
Inductive at_sweep (kept rest : list ptr) : pc -> Prop :=
| at_loop it : it = length kept -> at_sweep kept rest (RetireLoop it)
| at_scan it q rest' i j :
    it = length kept -> rest = q :: rest' ->
    at_sweep kept rest (Scanning it q i j)
| at_return : rest = [] -> at_sweep kept rest Idle.

(** Thread [t] is inside a [retire] that found [pend] in its list. *)
Definition sweeping (t : nat) (pend : list ptr) (ls : list label) (s : state)
  : Prop :=
  exists rest k,
    pcs s !! t = Some k /\
    at_sweep (kept_of (verdicts t ls)) rest k /\
    pend = (verdicts t ls).*1 ++ rest /\
    to_delete_at t (registry s) = kept_of (verdicts t ls) ++ rest.

(** Thread [t] is inside a [retire] that started on the registry [hp0] with
    [pend] in its list, and no hazard cell has changed since: what its
    checks read is what [hp0] holds, and its scans ended the way
    [is_protected] on [hp0] answers. *)
Definition sweeping_undisturbed (MaxPointersN threads_n : nat) (t : nat)
    (pend : list ptr) (hp0 : HazardPointers) (ls : list label) (s : state)
  : Prop :=
  well_shaped MaxPointersN threads_n s /\
  scan_recorded MaxPointersN threads_n t ls s /\
  sweeping t pend ls s /\
  (forall c, load c (registry s) = load c hp0) /\
  (forall q c v, (q, c, v) ∈ checks_of t ls -> load c hp0 = Some v) /\
  Forall (fun x : ptr * bool => x.2 = is_protected x.1 hp0) (verdicts t ls).

(** Notions for what the registry owes and what a sweep costs. *)

(** Every entry that waits in some retirement list, thread after thread:
    what the loop of [to_delete_size_unsafe] walks over. *)
Definition all_pending (hp : HazardPointers) : list ptr :=
  concat (to_delete <$> threads_ hp).

(** The pointers handed to [retire] by the calls of a schedule, null left
    out as [retire] leaves it out. *)
Definition retired_of (schedule : list (nat * action)) : list ptr :=
  omap (fun x : nat * action =>
          match x.2 with
          | CallRetire p => if to_bool p then Some p else None
          | _ => None
          end) schedule.

(** The entry a thread is scanning for is still where its iterator
    stands. *)
Definition entries_in_place (s : state) : Prop :=
  forall t it p i j,
    pcs s !! t = Some (Scanning it p i j) ->
    to_delete_at t (registry s) !! it = Some p.

(** The steps one entry of a retirement list can take at most: one to pick
    it up, one load for each cell and one more for each thread whose cells
    are exhausted, and one to erase it. *)
Definition sweep_budget (MaxPointersN threads_n : nat) : nat :=
  threads_n * (MaxPointersN + 1) + 2.

(** The steps a thread that stands at [k] inside [retire] has left at most,
    its list being [len] long. *)
Definition steps_left (MaxPointersN threads_n len : nat) (k : pc) : nat :=
  match k with
  | RetireLoop it => (len - it) * sweep_budget MaxPointersN threads_n + 1
  | Scanning it p i j =>
      (len - it) * sweep_budget MaxPointersN threads_n
      - (i * (MaxPointersN + 1) + j)
  | _ => 0
  end.

(** The steps of thread [t] in a schedule. *)
Definition own_steps (t : nat) (schedule : list (nat * action)) : nat :=
  length (filter (fun x : nat * action => x.1 = t) schedule).

(** Thread positions outside [protect]: idle, or inside [retire] with the
    iterator on an entry of the list and the scan within the cells. *)
Inductive in_retire (MaxPointersN threads_n len : nat) : pc -> Prop :=
| in_retire_idle : in_retire MaxPointersN threads_n len Idle
| in_retire_loop it : in_retire MaxPointersN threads_n len (RetireLoop it)
| in_retire_scan it p i j :
    it < len -> i <= threads_n -> j <= MaxPointersN ->
    (i = threads_n -> j = 0) ->
    in_retire MaxPointersN threads_n len (Scanning it p i j).

(** * Properties *)

(** Case analysis on a step that was taken. *)
Ltac step_cases H :=
  unfold step in H; repeat case_match; simplify_eq.

(** Reading the fields of a state that a step has built. *)
Ltac state_simpl :=
  cbn [registry pcs sources destroyed set_registry set_pc] in *.

(** ** Facts about the cells and the retirement lists *)

Lemma load_store_eq c v hp :
  valid_cell c hp -> load c (store c v hp) = Some v.
Proof.
  destruct c as [i j].
  intros [w Hw]. unfold load, store in *. simpl in *.
  rewrite list_lookup_alter_eq.
  destruct (threads_ hp !! i) as [data|]; simpl in *; [|done].
  apply list_lookup_insert_eq. by eapply lookup_lt_Some.
Qed.

Lemma load_store_ne c c' v hp :
  c <> c' -> load c' (store c v hp) = load c' hp.
Proof.
  intros Hne. unfold load, store. simpl.
  destruct c as [i j], c' as [i' j']; simpl.
  rewrite list_lookup_alter. case_decide; subst; [|done].
  destruct (threads_ hp !! i') as [data|]; simpl; [|done].
  apply list_lookup_insert_ne. congruence.
Qed.

Lemma valid_cell_store c c' v hp :
  valid_cell c' (store c v hp) <-> valid_cell c' hp.
Proof.
  destruct c as [i j], c' as [i' j'].
  unfold valid_cell, load, store. simpl.
  rewrite list_lookup_alter. case_decide; subst; [|done].
  destruct (threads_ hp !! i') as [data|]; simpl; [|done].
  rewrite !lookup_lt_is_Some, length_insert. done.
Qed.

Lemma store_store c v w hp :
  store c v (store c w hp) = store c v hp.
Proof.
  unfold store. simpl. f_equal. rewrite list_alter_alter_eq.
  apply list_alter_ext; [|done]. intros data _. simpl.
  by rewrite list_insert_insert_eq.
Qed.

Lemma store_same c v hp :
  load c hp = Some v -> store c v hp = hp.
Proof.
  destruct hp as [l], c as [i j]. unfold load, store. simpl. intros Hl. f_equal.
  apply list_eq. intros k. rewrite list_lookup_alter.
  case_decide; subst; [|done].
  destruct (l !! k) as [[h d]|]; simpl in *; [|done].
  by rewrite list_insert_id.
Qed.

Lemma length_store c v hp :
  length (threads_ (store c v hp)) = length (threads_ hp).
Proof. unfold store. simpl. apply length_alter. Qed.

Lemma to_delete_at_store t c v hp :
  to_delete_at t (store c v hp) = to_delete_at t hp.
Proof.
  destruct c as [i j].
  unfold to_delete_at, store. simpl. rewrite list_lookup_alter.
  case_decide; subst; [|done].
  by destruct (threads_ hp !! t).
Qed.

Lemma is_protected_set_to_delete p t v hp :
  is_protected p (set_to_delete t v hp) = is_protected p hp.
Proof.
  unfold is_protected, set_to_delete. simpl.
  generalize (threads_ hp) t. clear.
  induction l as [|d l IH]; intros [|t]; simpl; auto.
  f_equal. apply IH.
Qed.

Lemma to_delete_at_set_to_delete t v hp :
  t < length (threads_ hp) -> to_delete_at t (set_to_delete t v hp) = v.
Proof.
  intros Ht. unfold to_delete_at, set_to_delete. simpl.
  rewrite list_lookup_alter_eq.
  destruct (lookup_lt_is_Some_2 _ _ Ht) as [d ->]. done.
Qed.

Lemma to_delete_at_set_to_delete_ne t t' v hp :
  t <> t' -> to_delete_at t' (set_to_delete t v hp) = to_delete_at t' hp.
Proof.
  intros Hne. unfold to_delete_at, set_to_delete. simpl.
  by rewrite list_lookup_alter_ne.
Qed.

Lemma load_set_to_delete c t v hp :
  load c (set_to_delete t v hp) = load c hp.
Proof.
  destruct c as [i j].
  unfold load, set_to_delete. simpl. rewrite list_lookup_alter.
  case_decide; subst; [|done].
  by destruct (threads_ hp !! i).
Qed.

Lemma length_set_to_delete t v hp :
  length (threads_ (set_to_delete t v hp)) = length (threads_ hp).
Proof. unfold set_to_delete. simpl. apply length_alter. Qed.

Lemma set_to_delete_twice t v w hp :
  set_to_delete t v (set_to_delete t w hp) = set_to_delete t v hp.
Proof.
  unfold set_to_delete. simpl. f_equal.
  rewrite list_alter_alter_eq. done.
Qed.

Lemma set_to_delete_same t hp :
  set_to_delete t (to_delete_at t hp) hp = hp.
Proof.
  destruct hp as [l]. unfold set_to_delete, to_delete_at. simpl. f_equal.
  apply list_eq. intros i. rewrite list_lookup_alter.
  case_decide; subst; [|done].
  destruct (l !! i) as [[h v]|]; done.
Qed.

Lemma filter_protected_set_to_delete t v hp l :
  List.filter (fun q => is_protected q (set_to_delete t v hp)) l =
  List.filter (fun q => is_protected q hp) l.
Proof. apply List.filter_ext. intros. apply is_protected_set_to_delete. Qed.

Lemma filter_unprotected_set_to_delete t v hp l :
  List.filter (fun q => negb (is_protected q (set_to_delete t v hp))) l =
  List.filter (fun q => negb (is_protected q hp)) l.
Proof.
  apply List.filter_ext. intros. f_equal. apply is_protected_set_to_delete.
Qed.

(** [is_protected] answers whether some cell of some thread holds [p]. *)
Lemma is_protected_true p hp :
  is_protected p hp = true <-> exists c, load c hp = Some p.
Proof.
  unfold is_protected, load. rewrite existsb_exists. split.
  - intros (data & Hin & Hex). apply existsb_exists in Hex as (q & Hq & Heq).
    apply N.eqb_eq in Heq. subst q.
    apply list_elem_of_In, list_elem_of_lookup in Hin as [i Hi].
    apply list_elem_of_In, list_elem_of_lookup in Hq as [j Hj].
    exists (i, j). simpl. by rewrite Hi.
  - intros [[i j] Hc]. simpl in Hc.
    destruct (threads_ hp !! i) as [data|] eqn:Hi; [|done].
    exists data. split.
    + apply list_elem_of_In, list_elem_of_lookup. eauto.
    + apply existsb_exists. exists p. split; [|apply N.eqb_refl].
      apply list_elem_of_In, list_elem_of_lookup. eauto.
Qed.

Lemma is_protected_false p hp :
  is_protected p hp = false <-> forall c, load c hp <> Some p.
Proof.
  rewrite <- not_true_iff_false, is_protected_true.
  split; [intros H c Hc; apply H; eauto | intros H [c Hc]; by apply (H c)].
Qed.

(** ** The loop of [retire] is a filter *)

Lemma retire_loop_filter thread_id it hp destroyed :
  thread_id < length (threads_ hp) ->
  retire_loop thread_id it hp destroyed =
    (set_to_delete thread_id
       (take it (to_delete_at thread_id hp) ++
        List.filter (fun q => is_protected q hp)
                    (drop it (to_delete_at thread_id hp))) hp,
     destroyed ++
       List.filter (fun q => negb (is_protected q hp))
                   (drop it (to_delete_at thread_id hp))).
Proof.
  funelim (retire_loop thread_id it hp destroyed); intros Ht; clear Heqcall.
  - pose proof (lookup_ge_None_1 _ _ e).
    rewrite take_ge, drop_ge by done. simpl.
    by rewrite !app_nil_r, set_to_delete_same.
  - rewrite H by done.
    rewrite (drop_S _ _ _ Hp). simpl. rewrite e.
    rewrite (take_S_r _ _ _ Hp). simpl. by rewrite <- app_assoc.
  - rewrite H by (by rewrite length_set_to_delete).
    rewrite to_delete_at_set_to_delete by done.
    rewrite set_to_delete_twice.
    rewrite (drop_S _ _ _ Hp). simpl. rewrite e. simpl.
    pose proof (lookup_lt_Some _ _ _ Hp) as Hlt.
    rewrite delete_take_drop.
    rewrite take_app_le by (rewrite length_take; lia).
    rewrite take_take, Nat.min_id.
    rewrite drop_app_length' by (rewrite length_take; lia).
    rewrite <- app_assoc. simpl.
    by rewrite filter_protected_set_to_delete, filter_unprotected_set_to_delete.
Qed.

Lemma CHECK_true (A : Type) (k : outcome A) : (CHECK true ;; k) = k.
Proof. done. Qed.

Lemma CHECK_false (A : Type) (k : outcome A) : (CHECK false ;; k) = CheckFailed.
Proof. done. Qed.

Lemma retire_Ok thread_id p hp :
  thread_id < length (threads_ hp) ->
  retire thread_id p hp =
    Ok (set_to_delete thread_id
          (List.filter (fun q => is_protected q hp) (pending thread_id p hp)) hp,
        List.filter (fun q => negb (is_protected q hp)) (pending thread_id p hp)).
Proof.
  intros Ht. unfold retire, pending.
  rewrite bool_decide_eq_true_2, CHECK_true by done. f_equal.
  destruct (to_bool p).
  - rewrite retire_loop_filter by (by rewrite length_set_to_delete).
    rewrite to_delete_at_set_to_delete, set_to_delete_twice by done.
    rewrite take_0, drop_0. simpl.
    by rewrite filter_protected_set_to_delete, filter_unprotected_set_to_delete.
  - rewrite retire_loop_filter by done.
    by rewrite take_0, drop_0, app_nil_r.
Qed.

(** C7: for an in-range [thread_id], [retire] with a null pointer appends
    nothing: it is the sweep over the entries already in the list, so the
    list afterwards is the old list without the entries the sweep destroyed,
    and no other entry appears in it.  Cut into atomic steps, the call
    likewise goes straight to the loop and leaves the registry as it is. *)
Theorem retire_null_only_sweeps thread_id hp :
  thread_id < length (threads_ hp) ->
  retire thread_id nullptr hp = Ok (retire_loop thread_id 0 hp []) /\
  exists hp' destroyed,
    retire thread_id nullptr hp = Ok (hp', destroyed) /\
    to_delete_at thread_id hp' =
      List.filter (fun q => is_protected q hp) (to_delete_at thread_id hp) /\
    destroyed =
      List.filter (fun q => negb (is_protected q hp)) (to_delete_at thread_id hp) /\
    length (to_delete_at thread_id hp') + length destroyed =
      length (to_delete_at thread_id hp) /\
    (forall s,
       registry s = hp -> pcs s !! thread_id = Some Idle ->
       step thread_id (CallRetire nullptr) s =
         Some (Silent, set_pc thread_id (RetireLoop 0) s)).
Proof.
  intros Ht. split.
  - unfold retire. by rewrite bool_decide_eq_true_2, CHECK_true.
  - eexists _, _. split; [by apply retire_Ok|].
    rewrite to_delete_at_set_to_delete by done.
    unfold pending. simpl. rewrite app_nil_r. split_and!; try done.
    + induction (to_delete_at thread_id hp) as [|q l IH]; simpl; [done|].
      destruct (is_protected q hp); simpl; lia.
    + intros s <- Hidle. unfold step. rewrite Hidle.
      rewrite bool_decide_eq_true_2 by done. simpl. by destruct s.
Qed.

Lemma retire_null_only_sweeps_witness :
  let hp := {| threads_ := [ {| hazard := [7%N]; to_delete := [7%N; 8%N] |} ] |} in
  exists hp' destroyed,
    retire 0 nullptr hp = Ok (hp', destroyed) /\
    to_delete_at 0 hp' = [7%N] /\ destroyed = [8%N].
Proof.
  intros hp.
  destruct (retire_null_only_sweeps 0 hp) as
    (_ & hp' & destroyed & Hr & Hkeep & Hdel & _); [simpl; lia|].
  exists hp', destroyed. split; [exact Hr|]. split; [exact Hkeep|exact Hdel].
Defined.

(** ** Construction *)

Lemma fmap_constant_replicate {A B : Type} (f : A -> B) (b : B) (l : list A) :
  (forall x, f x = b) -> f <$> l = replicate (length l) b.
Proof.
  intros Hf. induction l as [|x l IH]; csimpl; [done|]. by rewrite Hf, IH.
Qed.

Lemma to_delete_size_replicate_empty n h acc :
  foldl (fun res thread => res + length (to_delete thread)) acc
        (replicate n {| hazard := h; to_delete := [] |}) = acc.
Proof.
  revert acc. induction n as [|n IH]; intros acc; simpl; [done|].
  rewrite IH. lia.
Qed.

Section Construction.

Variable MaxPointersN : nat.

Lemma ctor_threads (garbage : nat -> nat -> ptr) (threads_n : nat) :
  threads_ (HazardPointers_ctor MaxPointersN garbage threads_n) =
    replicate threads_n
      {| hazard := replicate MaxPointersN nullptr; to_delete := [] |}.
Proof.
  unfold HazardPointers_ctor, vector_ctor. simpl.
  rewrite <- list_fmap_compose.
  erewrite fmap_constant_replicate; [by rewrite length_seq|].
  intros i. simpl. f_equal.
  rewrite <- list_fmap_compose.
  erewrite fmap_constant_replicate; [by rewrite length_seq|done].
Qed.

(** C8: after construction with [threads_n], the registry holds exactly
    [threads_n] per-thread records, each with [MaxPointersN] hazard cells
    that all hold null and with an empty retirement list, whatever the
    storage of the cells held before the initialisation loops ran. *)
Theorem ctor_all_null_and_empty (garbage : nat -> nat -> ptr) (threads_n : nat) :
  threads_ (HazardPointers_ctor MaxPointersN garbage threads_n) =
    replicate threads_n
      {| hazard := replicate MaxPointersN nullptr; to_delete := [] |} /\
  length (threads_ (HazardPointers_ctor MaxPointersN garbage threads_n)) = threads_n /\
  to_delete_size_unsafe (HazardPointers_ctor MaxPointersN garbage threads_n) = 0.
Proof.
  pose proof (ctor_threads garbage threads_n) as Heq.
  split; [exact Heq|]. split.
  - by rewrite Heq, length_replicate.
  - unfold to_delete_size_unsafe. rewrite Heq.
    apply to_delete_size_replicate_empty.
Qed.

End Construction.

(** ** Bounds checks *)

Lemma get_hazard_ptr_CheckFailed thread_id pos hp :
  get_hazard_ptr thread_id pos hp = CheckFailed <->
  length (threads_ hp) <= thread_id.
Proof.
  unfold get_hazard_ptr.
  destruct (decide (thread_id < length (threads_ hp))) as [Hlt|Hge].
  - rewrite bool_decide_eq_true_2, CHECK_true by done.
    destruct (load _ hp); split; (done || lia).
  - rewrite bool_decide_eq_false_2, CHECK_false by done. split; [lia|done].
Qed.

Lemma get_hazard_ptr_Ok thread_id pos hp c :
  get_hazard_ptr thread_id pos hp = Ok c ->
  c = (thread_id, pos) /\ valid_cell c hp.
Proof.
  unfold get_hazard_ptr, valid_cell.
  destruct (bool_decide _); [|done]. rewrite CHECK_true.
  destruct (load (thread_id, pos) hp) eqn:Hl; [|done].
  intros [= <-]. rewrite Hl. eauto.
Qed.

(** C3, as the code has it: of the two preconditions only the thread id is
    guarded.  [get_holder], the old-interface [protect] and [clear], and
    [retire] end in a failed CHECK exactly when the thread id is out of
    range, whatever the slot index is; the slot index reaches the cell array
    unchecked. *)
Theorem check_fails_exactly_on_thread_id
    (thread_id pos fuel : nat) (to_protect : nat -> ptr) (p : ptr)
    (hp : HazardPointers) :
  (get_holder thread_id pos hp = CheckFailed <->
     length (threads_ hp) <= thread_id) /\
  (protect fuel thread_id pos to_protect hp = CheckFailed <->
     length (threads_ hp) <= thread_id) /\
  (clear thread_id pos hp = CheckFailed <->
     length (threads_ hp) <= thread_id) /\
  (retire thread_id p hp = CheckFailed <->
     length (threads_ hp) <= thread_id).
Proof.
  pose proof (get_hazard_ptr_CheckFailed thread_id pos hp) as Hg.
  split_and!.
  - unfold get_holder. rewrite <- Hg.
    by destruct (get_hazard_ptr thread_id pos hp).
  - unfold protect. rewrite <- Hg.
    by destruct (get_hazard_ptr thread_id pos hp).
  - unfold clear. rewrite <- Hg.
    by destruct (get_hazard_ptr thread_id pos hp).
  - unfold retire.
    destruct (decide (thread_id < length (threads_ hp))) as [Hlt|Hge].
    + rewrite bool_decide_eq_true_2, CHECK_true by done. split; [done|lia].
    + rewrite bool_decide_eq_false_2, CHECK_false by done. split; [lia|done].
Qed.

Lemma check_fails_exactly_on_thread_id_witness :
  let hp := HazardPointers_ctor 1 (fun _ _ => nullptr) 2 in
  get_holder 2 0 hp = CheckFailed /\
  protect 1 2 0 (fun _ => nullptr) hp = CheckFailed /\
  clear 2 0 hp = CheckFailed /\
  retire 2 7%N hp = CheckFailed.
Proof.
  intros hp.
  destruct (check_fails_exactly_on_thread_id 2 0 1 (fun _ => nullptr) 7%N hp)
    as (H1 & H2 & H3 & H4).
  split_and!.
  - apply H1. simpl. lia.
  - apply H2. simpl. lia.
  - apply H3. simpl. lia.
  - apply H4. simpl. lia.
Defined.

(** C3, as stated, fails: in a registry of one thread with
    [MaxPointersN = 1] the slot index 1 is out of range, yet with the
    in-range thread id 0 neither [get_holder] nor the old-interface
    [protect] and [clear] end in a failed CHECK; they index the cell array
    past its end. *)
Lemma slot_index_is_not_checked :
  let hp := HazardPointers_ctor 1 (fun _ _ => nullptr) 1 in
  ~ every_bound_is_checked 1 /\
  get_holder 0 1 hp = OutOfBounds /\
  protect 1 0 1 (fun _ => nullptr) hp = OutOfBounds /\
  clear 0 1 hp = OutOfBounds.
Proof.
  intros hp. split_and!; try reflexivity.
  intros Hall.
  destruct (Hall hp 0 1 1 (fun _ => nullptr)) as (Hg & _).
  - repeat constructor.
  - right. lia.
  - discriminate Hg.
Qed.

(** ** [clear] *)

(** C6: [clear] stores null into the cell of the scope, calling it twice
    leaves the registry as calling it once does, and on a cell that already
    holds null it changes nothing.  [do_clear], behind the old-interface
    [clear], does the same. *)
Theorem clear_stores_null_idempotent thread_id pos hp h :
  get_holder thread_id pos hp = Ok h ->
  load (hazard_ptr_ h) (Holder_clear h hp) = Some nullptr /\
  Holder_clear h (Holder_clear h hp) = Holder_clear h hp /\
  (load (hazard_ptr_ h) hp = Some nullptr -> Holder_clear h hp = hp) /\
  clear thread_id pos hp = Ok (Holder_clear h hp) /\
  do_clear (hazard_ptr_ h) (do_clear (hazard_ptr_ h) hp) = do_clear (hazard_ptr_ h) hp.
Proof.
  unfold get_holder, clear. intros Hh.
  destruct (get_hazard_ptr thread_id pos hp) as [c| |] eqn:Hc; try done.
  injection Hh as <-. simpl.
  apply get_hazard_ptr_Ok in Hc as [-> Hv].
  unfold Holder_clear, do_clear. simpl. split_and!.
  - by apply load_store_eq.
  - apply store_store.
  - apply store_same.
  - done.
  - apply store_store.
Qed.

Lemma clear_stores_null_idempotent_witness :
  let hp := {| threads_ := [ {| hazard := [7%N]; to_delete := [] |} ] |} in
  let h := {| hazard_ptr_ := (0, 0) |} in
  get_holder 0 0 hp = Ok h /\
  load (0, 0) (Holder_clear h hp) = Some nullptr /\
  Holder_clear h (Holder_clear h hp) = Holder_clear h hp.
Proof.
  intros hp h.
  assert (Hh : get_holder 0 0 hp = Ok h) by reflexivity.
  destruct (clear_stores_null_idempotent 0 0 hp h Hh) as (H1 & H2 & _).
  split; [exact Hh|]. split; [exact H1|exact H2].
Defined.

(** ** Moving a [Holder] *)

(** C5, what the code does: the defaulted move constructor leaves the
    moved-from [Holder] bound to the cell, and its destructor still clears
    it.  So destroying the moved-from scope wipes the value the new scope
    protects. *)
Theorem moved_from_holder_still_clears (h : Holder) (hp : HazardPointers) :
  valid_cell (hazard_ptr_ h) hp ->
  hazard_ptr_ (Holder_move h) = hazard_ptr_ h /\
  load (hazard_ptr_ (Holder_move h)) (Holder_dtor h hp) = Some nullptr.
Proof.
  intros Hv. split; [done|].
  unfold Holder_dtor, Holder_clear, Holder_move. simpl.
  by apply load_store_eq.
Qed.

Lemma moved_from_holder_still_clears_witness :
  let hp0 := HazardPointers_ctor 1 (fun _ _ => nullptr) 1 in
  let h1 := {| hazard_ptr_ := (0, 0) |} in
  get_holder 0 0 hp0 = Ok h1 /\
  exists hp1 log,
    Holder_protect 2 h1 (fun _ => 5%N) hp0 = Some (5%N, hp1, log) /\
    load (hazard_ptr_ (Holder_move h1)) hp1 = Some 5%N /\
    load (hazard_ptr_ (Holder_move h1)) (Holder_dtor h1 hp1) = Some nullptr.
Proof.
  intros hp0 h1. split; [reflexivity|].
  eexists _, _. split; [reflexivity|]. split; [reflexivity|].
  apply (moved_from_holder_still_clears h1). vm_compute. eauto.
Defined.

(** ** [do_protect] *)

Lemma ptr_eqb_eq p q : ptr_eqb p q = true <-> p = q.
Proof. apply N.eqb_eq. Qed.

Lemma ptr_eqb_neq p q : ptr_eqb p q = false <-> p <> q.
Proof. apply N.eqb_neq. Qed.

(** The loop entered at its [k]-th test, [m] rounds before the first load
    that agrees with the one before it. *)
Lemma do_protect_loop_rounds m :
  forall fuel hazard_ptr to_protect k hp log,
    (forall j, k <= j < k + m -> to_protect j <> saved_at to_protect j) ->
    to_protect (k + m) = saved_at to_protect (k + m) ->
    m < fuel ->
    do_protect_loop fuel hazard_ptr to_protect k (saved_at to_protect k) hp log =
      Some (to_protect (k + m),
            foldl (fun h j => store hazard_ptr (to_protect j) h) hp (seq k m),
            log ++
            flat_map (fun j => [SourceLoad (to_protect j);
                                HazardStore hazard_ptr (to_protect j)]) (seq k m)
            ++ [SourceLoad (to_protect (k + m))]).
Proof.
  induction m as [|m IH]; intros fuel c src k hp log Hne Heq Hfuel;
    (destruct fuel as [|fuel]; [lia|]); simpl.
  - rewrite Nat.add_0_r in *.
    rewrite (proj2 (ptr_eqb_eq _ _) Heq). simpl. by rewrite <- Heq.
  - rewrite (proj2 (ptr_eqb_neq _ _)) by (apply Hne; lia). simpl.
    change (src k) with (saved_at src (S k)) at 1.
    rewrite (IH fuel c src (S k)).
    + rewrite Nat.add_succ_r. simpl. by rewrite <- app_assoc.
    + intros j Hj. apply Hne. lia.
    + by rewrite Nat.add_succ_r in Heq.
    + lia.
Qed.

(** A loop that never sees two loads agree within its fuel is still
    spinning when the fuel is spent. *)
Lemma do_protect_loop_spins fuel :
  forall hazard_ptr to_protect k hp log,
    (forall j, k <= j < k + fuel -> to_protect j <> saved_at to_protect j) ->
    do_protect_loop fuel hazard_ptr to_protect k (saved_at to_protect k) hp log
      = None.
Proof.
  induction fuel as [|fuel IH]; intros c src k hp log Hne; simpl; [done|].
  rewrite (proj2 (ptr_eqb_neq _ _)) by (apply Hne; lia). simpl.
  change (src k) with (saved_at src (S k)) at 1.
  apply IH. intros j Hj. apply Hne. lia.
Qed.

(** C2: [protect] loads the source, publishes the value into the hazard
    cell of the scope and loads the source again, round after round, until a
    load returns what the load before it returned (null counting as the
    load before the first); it then returns that value.  When [n] is the
    first such load, the accesses are [n] rounds of load and publish
    followed by the closing load; any fuel above [n] lets the call return,
    and with less the loop is still running.  When the first load returns
    null, the call returns null with that single load: no store, no further
    round.  The old-interface [protect] runs the same loop on the cell of
    its thread and position. *)
Theorem do_protect_until_reads_agree
    (h : Holder) (to_protect : nat -> ptr) (hp : HazardPointers)
    (n fuel : nat) :
  (forall k, k < n -> to_protect k <> saved_at to_protect k) ->
  to_protect n = saved_at to_protect n ->
  n < fuel ->
  Holder_protect fuel h to_protect hp =
    Some (to_protect n,
          published (hazard_ptr_ h) to_protect n hp,
          protect_accesses (hazard_ptr_ h) to_protect n) /\
  (to_protect 0 = nullptr ->
   Holder_protect fuel h to_protect hp =
     Some (nullptr, hp, [SourceLoad nullptr])) /\
  (forall fuel', fuel' <= n -> Holder_protect fuel' h to_protect hp = None) /\
  (forall thread_id pos,
     get_holder thread_id pos hp = Ok h ->
     protect fuel thread_id pos to_protect hp =
       Ok (Holder_protect fuel h to_protect hp)).
Proof.
  intros Hne Heq Hfuel. split_and!.
  - unfold Holder_protect, do_protect, published, protect_accesses.
    change nullptr with (saved_at to_protect 0).
    rewrite (do_protect_loop_rounds n); try done.
    intros j Hj. apply Hne. lia.
  - intros H0. unfold Holder_protect, do_protect.
    change nullptr with (saved_at to_protect 0) at 1.
    rewrite (do_protect_loop_rounds 0); try done; [|lia..].
    simpl. by rewrite H0.
  - intros fuel' Hle. unfold Holder_protect, do_protect.
    change nullptr with (saved_at to_protect 0).
    apply do_protect_loop_spins. intros j Hj. apply Hne. lia.
  - intros thread_id pos. unfold get_holder, protect, Holder_protect.
    destruct (get_hazard_ptr thread_id pos hp) as [c| |]; try done.
    simpl. by intros [= <-].
Qed.

Lemma do_protect_until_reads_agree_witness :
  let src := fun k : nat => match k with 0 => 3%N | _ => 4%N end in
  let hp := {| threads_ := [ {| hazard := [0%N]; to_delete := [] |} ] |} in
  let h := {| hazard_ptr_ := (0, 0) |} in
  Holder_protect 3 h src hp =
    Some (4%N,
          {| threads_ := [ {| hazard := [4%N]; to_delete := [] |} ] |},
          [SourceLoad 3%N; HazardStore (0, 0) 3%N;
           SourceLoad 4%N; HazardStore (0, 0) 4%N; SourceLoad 4%N]) /\
  Holder_protect 1 h (fun _ => nullptr) hp = Some (nullptr, hp, [SourceLoad nullptr]).
Proof.
  intros src hp h. split.
  - refine (proj1 (do_protect_until_reads_agree h src hp 2 3 _ _ _)).
    + intros [|[|k]] Hk; simpl; (done || lia).
    + reflexivity.
    + lia.
  - refine (proj1 (proj2 (do_protect_until_reads_agree h (fun _ => nullptr) hp 0 1 _ _ _)) _).
    + intros k Hk. lia.
    + reflexivity.
    + lia.
    + reflexivity.
Defined.

(** A [do_protect] that returns a non-null pointer leaves it published. *)
Lemma do_protect_loop_publishes fuel :
  forall hazard_ptr to_protect k saved hp log p hp' log',
    do_protect_loop fuel hazard_ptr to_protect k saved hp log = Some (p, hp', log') ->
    valid_cell hazard_ptr hp ->
    (saved <> nullptr -> load hazard_ptr hp = Some saved) ->
    p <> nullptr ->
    load hazard_ptr hp' = Some p.
Proof.
  induction fuel as [|fuel IH]; intros c src k saved hp log p hp' log' Hrun Hv Hs Hp;
    simpl in Hrun; [done|].
  destruct (ptr_eqb (src k) saved) eqn:Heq; simpl in Hrun.
  - injection Hrun as <- <- <-. by apply Hs.
  - eapply IH; [exact Hrun| | |done].
    + by apply valid_cell_store.
    + intros _. by apply load_store_eq.
Qed.

Lemma do_protect_publishes fuel hazard_ptr to_protect hp p hp' log :
  do_protect fuel hazard_ptr to_protect hp = Some (p, hp', log) ->
  valid_cell hazard_ptr hp ->
  p <> nullptr ->
  load hazard_ptr hp' = Some p.
Proof.
  intros Hrun Hv Hp. eapply do_protect_loop_publishes; eauto. done.
Qed.

(** C9: [protect] on a source that holds null returns null after its first
    load and never writes the hazard cell: the registry is left as it was.
    So when an earlier [protect] through the same scope returned a non-null
    pointer and no [clear] followed, that pointer is still published after
    the call. *)
Theorem protect_null_leaves_cell_untouched
    (h : Holder) (hp : HazardPointers) (fuel : nat) (source : nat -> ptr) :
  source 0 = nullptr ->
  Holder_protect (S fuel) h source hp = Some (nullptr, hp, [SourceLoad nullptr]) /\
  (forall hp0 fuel0 source0 p log0,
     valid_cell (hazard_ptr_ h) hp0 ->
     Holder_protect fuel0 h source0 hp0 = Some (p, hp, log0) ->
     p <> nullptr ->
     exists hp',
       Holder_protect (S fuel) h source hp = Some (nullptr, hp', [SourceLoad nullptr]) /\
       load (hazard_ptr_ h) hp' = Some p).
Proof.
  intros H0.
  assert (Hrun : Holder_protect (S fuel) h source hp
                 = Some (nullptr, hp, [SourceLoad nullptr])).
  { unfold Holder_protect, do_protect. simpl. by rewrite H0. }
  split; [exact Hrun|].
  intros hp0 fuel0 source0 p log0 Hv Hrun0 Hp.
  exists hp. split; [exact Hrun|]. by eapply do_protect_publishes.
Qed.

Lemma protect_null_leaves_cell_untouched_witness :
  let hp0 := {| threads_ := [ {| hazard := [0%N]; to_delete := [] |} ] |} in
  let hp := {| threads_ := [ {| hazard := [5%N]; to_delete := [] |} ] |} in
  let h := {| hazard_ptr_ := (0, 0) |} in
  Holder_protect 2 h (fun _ => 5%N) hp0 =
    Some (5%N, hp, [SourceLoad 5%N; HazardStore (0, 0) 5%N; SourceLoad 5%N]) /\
  exists hp',
    Holder_protect 1 h (fun _ => nullptr) hp = Some (nullptr, hp', [SourceLoad nullptr]) /\
    load (0, 0) hp' = Some 5%N.
Proof.
  intros hp0 hp h.
  assert (Hfirst : Holder_protect 2 h (fun _ => 5%N) hp0 =
            Some (5%N, hp, [SourceLoad 5%N; HazardStore (0, 0) 5%N; SourceLoad 5%N]))
    by reflexivity.
  split; [exact Hfirst|].
  assert (Hnull : (fun _ : nat => nullptr) 0 = nullptr) by reflexivity.
  assert (Hv : valid_cell (hazard_ptr_ h) hp0) by (vm_compute; eauto).
  assert (Hp : 5%N <> nullptr) by discriminate.
  exact (proj2 (protect_null_leaves_cell_untouched h hp 0 (fun _ => nullptr) Hnull)
               hp0 2 (fun _ => 5%N) 5%N _ Hv Hfirst Hp).
Defined.

(** ** Retirement lists hold no null entry *)

Lemma no_null_entries_alt hp :
  no_null_entries hp <->
  forall thread_id q, q ∈ to_delete_at thread_id hp -> q <> nullptr.
Proof.
  unfold no_null_entries, to_delete_at. rewrite Forall_lookup. split.
  - intros H t q Hq. destruct (threads_ hp !! t) as [data|] eqn:Ht.
    + specialize (H t data Ht). rewrite List.Forall_forall in H.
      by apply H, list_elem_of_In.
    + by apply elem_of_nil in Hq.
  - intros H t data Ht. apply List.Forall_forall. intros q Hq.
    apply (H t). rewrite Ht. by apply list_elem_of_In.
Qed.

Lemma no_null_entries_same_lists hp hp' :
  (forall thread_id, to_delete_at thread_id hp' = to_delete_at thread_id hp) ->
  no_null_entries hp -> no_null_entries hp'.
Proof.
  rewrite !no_null_entries_alt. intros Heq H t q. rewrite Heq. apply H.
Qed.

Lemma do_protect_loop_to_delete fuel :
  forall hazard_ptr to_protect k saved hp log p hp' log' thread_id,
    do_protect_loop fuel hazard_ptr to_protect k saved hp log = Some (p, hp', log') ->
    to_delete_at thread_id hp' = to_delete_at thread_id hp.
Proof.
  induction fuel as [|fuel IH]; intros c src k saved hp log p hp' log' t Hrun;
    simpl in Hrun; [done|].
  destruct (ptr_eqb (src k) saved); simpl in Hrun.
  - by injection Hrun as <- <- <-.
  - erewrite IH by exact Hrun. apply to_delete_at_store.
Qed.

Lemma to_bool_true p : to_bool p = true <-> p <> nullptr.
Proof. unfold to_bool. rewrite negb_true_iff. apply ptr_eqb_neq. Qed.

Lemma retire_no_null_entries thread_id p hp hp' destroyed :
  no_null_entries hp ->
  retire thread_id p hp = Ok (hp', destroyed) ->
  no_null_entries hp'.
Proof.
  intros Hinv Hr.
  destruct (decide (thread_id < length (threads_ hp))) as [Hlt|Hge].
  - rewrite retire_Ok in Hr by done. injection Hr as <- <-.
    rewrite no_null_entries_alt in *. intros t q.
    destruct (decide (thread_id = t)) as [<-|Hne].
    + rewrite to_delete_at_set_to_delete by done.
      rewrite list_elem_of_In, filter_In, <- list_elem_of_In.
      unfold pending. rewrite elem_of_app. intros [[Hq|Hq] _].
      * by apply (Hinv thread_id).
      * destruct (to_bool p) eqn:Hb; [|by apply elem_of_nil in Hq].
        apply list_elem_of_singleton in Hq as ->. by apply to_bool_true.
    + rewrite to_delete_at_set_to_delete_ne by done. apply Hinv.
  - unfold retire in Hr.
    by rewrite bool_decide_eq_false_2, CHECK_false in Hr.
Qed.

Lemma perform_no_null_entries o hp hp' :
  no_null_entries hp -> perform o hp = Some hp' -> no_null_entries hp'.
Proof.
  intros Hinv Hrun. destruct o as [t p|fuel t pos src|t pos|fuel h src|h|];
    simpl in Hrun.
  - destruct (retire t p hp) as [[hp1 d]| |] eqn:Hr; try done.
    injection Hrun as <-. by eapply retire_no_null_entries.
  - unfold protect in Hrun.
    destruct (get_hazard_ptr t pos hp) as [c| |]; try done. simpl in Hrun.
    destruct (do_protect fuel c src hp) as [[[v hp1] log]|] eqn:Hp; try done.
    injection Hrun as <-.
    eapply no_null_entries_same_lists; [|done].
    intros t'. eapply do_protect_loop_to_delete. exact Hp.
  - unfold clear in Hrun.
    destruct (get_hazard_ptr t pos hp) as [c| |]; try done. simpl in Hrun.
    injection Hrun as <-.
    eapply no_null_entries_same_lists; [|done].
    intros t'. apply to_delete_at_store.
  - destruct (Holder_protect fuel h src hp) as [[[v hp1] log]|] eqn:Hp; try done.
    injection Hrun as <-.
    eapply no_null_entries_same_lists; [|done].
    intros t'. eapply do_protect_loop_to_delete. exact Hp.
  - injection Hrun as <-.
    eapply no_null_entries_same_lists; [|done].
    intros t'. apply to_delete_at_store.
  - by injection Hrun as <-.
Qed.

Lemma ctor_no_null_entries MaxPointersN garbage threads_n :
  no_null_entries (HazardPointers_ctor MaxPointersN garbage threads_n).
Proof.
  unfold no_null_entries.
  rewrite ctor_threads.
  apply Forall_replicate. simpl. constructor.
Qed.

Lemma run_all_no_null_entries ops :
  forall hp hp',
    no_null_entries hp -> perform_all ops hp = Some hp' -> no_null_entries hp'.
Proof.
  induction ops as [|o ops IH]; intros hp hp' Hinv Hrun; simpl in Hrun.
  - by injection Hrun as <-.
  - destruct (perform o hp) as [hp1|] eqn:Ho; [|done].
    eapply IH; [|exact Hrun]. by eapply perform_no_null_entries.
Qed.

Lemma elem_of_to_delete_at_set_to_delete t0 t v hp q :
  q ∈ to_delete_at t0 (set_to_delete t v hp) ->
  q ∈ v \/ q ∈ to_delete_at t0 hp.
Proof.
  destruct (decide (t0 = t)) as [->|Hne].
  - destruct (decide (t < length (threads_ hp))) as [Hlt|Hge].
    + rewrite to_delete_at_set_to_delete by done. auto.
    + unfold to_delete_at, set_to_delete. simpl.
      rewrite list_lookup_alter_eq, lookup_ge_None_2 by lia. simpl.
      intros H. by apply elem_of_nil in H.
  - rewrite to_delete_at_set_to_delete_ne by done. auto.
Qed.

(** The steps of the threads keep the lists free of null as well. *)
Lemma step_no_null_entries t a s l s' :
  no_null_entries (registry s) ->
  step t a s = Some (l, s') ->
  no_null_entries (registry s').
Proof.
  intros Hinv Hs.
  step_cases Hs; state_simpl; unfold do_clear; try done.
  - eapply no_null_entries_same_lists; [|done].
    intros t'. apply to_delete_at_store.
  - rewrite no_null_entries_alt in *. intros t0 q Hq.
    apply elem_of_to_delete_at_set_to_delete in Hq as [Hq|Hq]; [|by eapply Hinv].
    apply elem_of_app in Hq as [Hq|Hq]; [by eapply Hinv|].
    apply list_elem_of_singleton in Hq as ->. by apply to_bool_true.
  - eapply no_null_entries_same_lists; [|done].
    intros t'. apply to_delete_at_store.
  - rewrite no_null_entries_alt in *. intros t0 q Hq.
    apply elem_of_to_delete_at_set_to_delete in Hq as [Hq|Hq]; [|by eapply Hinv].
    apply (Hinv t). eapply elem_of_sublist; [exact Hq|apply sublist_delete].
Qed.

(** C10: no retirement list ever holds a null entry.  The lists are empty
    after construction, and [retire] (with a null or a non-null pointer),
    [protect], [clear] and the pending count each keep the lists free of
    null, so that every registry reached from a fresh one by any sequence of
    these calls has only non-null entries; so does every atomic step of a
    thread inside one of them.  The sweep therefore never asks
    about a null entry, which [is_protected] would report as protected as
    soon as one cell is empty. *)
Theorem retirement_lists_hold_no_null
    (MaxPointersN threads_n : nat) (garbage : nat -> nat -> ptr)
    (ops : list operation) (o : operation) (hp hp' : HazardPointers) :
  perform_all ops (HazardPointers_ctor MaxPointersN garbage threads_n) = Some hp ->
  perform o hp = Some hp' ->
  no_null_entries hp /\ no_null_entries hp' /\
  (forall thread_id it q,
     to_delete_at thread_id hp' !! it = Some q -> q <> nullptr) /\
  (forall hp0 o0 hp1,
     no_null_entries hp0 -> perform o0 hp0 = Some hp1 -> no_null_entries hp1) /\
  (forall t a s l s',
     no_null_entries (registry s) -> step t a s = Some (l, s') ->
     no_null_entries (registry s')) /\
  (forall hp0 c, load c hp0 = Some nullptr -> is_protected nullptr hp0 = true).
Proof.
  intros Hops Ho.
  assert (Hinv : no_null_entries hp).
  { eapply run_all_no_null_entries; [|exact Hops]. apply ctor_no_null_entries. }
  assert (Hinv' : no_null_entries hp') by (by eapply perform_no_null_entries).
  split_and!; try done.
  - intros t it q Hq. rewrite no_null_entries_alt in Hinv'.
    apply (Hinv' t). apply list_elem_of_lookup. eauto.
  - intros hp0 o0 hp1. apply perform_no_null_entries.
  - intros t a s l s'. apply step_no_null_entries.
  - intros hp0 c Hc. apply is_protected_true. eauto.
Qed.

Lemma retirement_lists_hold_no_null_witness :
  let hp := {| threads_ := [ {| hazard := [7%N]; to_delete := [7%N] |} ] |} in
  perform_all [OpProtect 2 0 0 (fun _ => 7%N); OpRetire 0 7%N; OpRetire 0 nullptr]
          (HazardPointers_ctor 1 (fun _ _ => 9%N) 1) = Some hp /\
  no_null_entries hp.
Proof.
  intros hp.
  assert (Hops : perform_all [OpProtect 2 0 0 (fun _ => 7%N); OpRetire 0 7%N;
                          OpRetire 0 nullptr]
                   (HazardPointers_ctor 1 (fun _ _ => 9%N) 1) = Some hp)
    by reflexivity.
  split; [exact Hops|].
  exact (proj1 (retirement_lists_hold_no_null 1 1 (fun _ _ => 9%N) _
                  OpPendingCount hp hp Hops eq_refl)).
Defined.

(** ** Threads running side by side *)

(** *** Runs *)

Lemma run_length sched : forall s ls s',
  run sched s = Some (ls, s') -> length ls = length sched.
Proof.
  induction sched as [|[t a] sched IH]; intros s ls s'; simpl.
  - by intros [= <- <-].
  - destruct (step t a s) as [[l s1]|]; [|done].
    destruct (run sched s1) as [[ls0 s0]|] eqn:Hr; [|done].
    intros [= <- <-]. simpl. f_equal. by eapply IH.
Qed.

(** A run that shows [l] after the labels [l1] took a step with that label
    from the state the run had reached then. *)
Lemma run_split_at sched : forall s l1 l l2 s',
  run sched s = Some (l1 ++ l :: l2, s') ->
  exists sch1 t a sch2 s1 s2,
    sched = sch1 ++ (t, a) :: sch2 /\
    run sch1 s = Some (l1, s1) /\
    step t a s1 = Some (l, s2) /\
    run sch2 s2 = Some (l2, s').
Proof.
  induction sched as [|[t a] sched IH]; intros s l1 l l2 s'; simpl.
  - intros [= H _]. by destruct l1.
  - destruct (step t a s) as [[l0 s1]|] eqn:Hs; [|done].
    destruct (run sched s1) as [[ls0 s0]|] eqn:Hr; [|done].
    intros [= Hl <-]. destruct l1 as [|l1h l1]; simpl in Hl.
    + injection Hl as <- <-.
      exists [], t, a, sched, s, s1. done.
    + injection Hl as <- ->.
      apply IH in Hr as (sch1 & t' & a' & sch2 & s2 & s3 & -> & Hr1 & Hs' & Hr2).
      exists ((t, a) :: sch1), t', a', sch2, s2, s3. simpl.
      rewrite Hs, Hr1. done.
Qed.

(** An invariant of the steps, which may mention the labels seen so far,
    holds along every run. *)
Lemma run_invariant (P : list label -> state -> Prop) :
  (forall ls s t a l s', P ls s -> step t a s = Some (l, s') -> P (ls ++ [l]) s') ->
  forall sched ls0 s ls s',
    P ls0 s -> run sched s = Some (ls, s') -> P (ls0 ++ ls) s'.
Proof.
  intros Hstep. induction sched as [|[t a] sched IH]; intros ls0 s ls s' HP; simpl.
  - intros [= <- <-]. by rewrite app_nil_r.
  - destruct (step t a s) as [[l s1]|] eqn:Hs; [|done].
    destruct (run sched s1) as [[ls1 s2]|] eqn:Hr; [|done].
    intros [= <- <-].
    replace (ls0 ++ l :: ls1) with ((ls0 ++ [l]) ++ ls1) by (by rewrite <- app_assoc).
    eapply IH; [|exact Hr]. by eapply Hstep.
Qed.

(** *** The registry keeps its shape *)

Lemma shape_store MaxPointersN c v hp :
  Forall (fun data => length (hazard data) = MaxPointersN) (threads_ hp) ->
  Forall (fun data => length (hazard data) = MaxPointersN) (threads_ (store c v hp)).
Proof.
  unfold store. simpl. intros H. apply Forall_alter; [done|].
  intros data _ Hd. simpl. by rewrite length_insert.
Qed.

Lemma shape_set_to_delete MaxPointersN t l hp :
  Forall (fun data => length (hazard data) = MaxPointersN) (threads_ hp) ->
  Forall (fun data => length (hazard data) = MaxPointersN)
         (threads_ (set_to_delete t l hp)).
Proof.
  unfold set_to_delete. simpl. intros H. apply Forall_alter; [done|].
  intros data _ Hd. done.
Qed.

Lemma step_well_shaped MaxPointersN threads_n t a s l s' :
  well_shaped MaxPointersN threads_n s ->
  step t a s = Some (l, s') ->
  well_shaped MaxPointersN threads_n s'.
Proof.
  intros (Hn & Hm & Hp) Hs. unfold well_shaped.
  step_cases Hs; state_simpl; unfold do_clear;
    rewrite ?length_insert, ?length_store, ?length_set_to_delete;
    split_and!; auto using shape_store, shape_set_to_delete.
Qed.

Lemma initial_well_shaped MaxPointersN threads_n garbage srcs :
  well_shaped MaxPointersN threads_n (initial MaxPointersN threads_n garbage srcs).
Proof.
  unfold well_shaped, initial. state_simpl.
  split_and!.
  - by rewrite ctor_threads, length_replicate.
  - rewrite ctor_threads. apply Forall_replicate. simpl. apply length_replicate.
  - apply length_replicate.
Qed.

Lemma shaped_thread_lookup MaxPointersN threads_n s i :
  well_shaped MaxPointersN threads_n s ->
  (threads_ (registry s) !! i = None <-> threads_n <= i).
Proof. intros (Hn & _). rewrite <- Hn. apply lookup_ge_None. Qed.

Lemma shaped_cell_lookup MaxPointersN threads_n s i data j :
  well_shaped MaxPointersN threads_n s ->
  threads_ (registry s) !! i = Some data ->
  i < threads_n /\ (hazard data !! j = None <-> MaxPointersN <= j).
Proof.
  intros (Hn & Hm & _) Hi. split.
  - rewrite <- Hn. by eapply lookup_lt_Some.
  - rewrite Forall_lookup in Hm. rewrite <- (Hm _ _ Hi). apply lookup_ge_None.
Qed.

(** *** Every scan is on record *)

Lemma checks_of_snoc t ls l :
  checks_of t (ls ++ [l]) =
  checks_of t ls ++
    match l with
    | Checked t' p c v => if decide (t' = t) then [(p, c, v)] else []
    | _ => []
    end.
Proof.
  unfold checks_of. rewrite omap_app. f_equal.
  destruct l; simpl; try done. by case_decide.
Qed.

Lemma cells_before_next_cell MaxPointersN i j :
  cells_before MaxPointersN i (S j) = cells_before MaxPointersN i j ++ [(i, j)].
Proof.
  unfold cells_before. rewrite seq_S, fmap_app. simpl. by rewrite app_assoc.
Qed.

Lemma cells_before_next_thread MaxPointersN i :
  cells_before MaxPointersN (S i) 0 = cells_before MaxPointersN i MaxPointersN.
Proof.
  unfold cells_before. rewrite seq_S, flat_map_app. simpl.
  by rewrite !app_nil_r.
Qed.

Lemma step_pcs_other t a s l s' t0 :
  step t a s = Some (l, s') -> t0 <> t -> pcs s' !! t0 = pcs s !! t0.
Proof.
  intros Hs Hne. step_cases Hs; state_simpl; try done.
  all: by rewrite list_lookup_insert_ne.
Qed.

Lemma step_checked_by t a s t' p c v s' :
  step t a s = Some (Checked t' p c v, s') -> t' = t.
Proof. intros Hs. by step_cases Hs. Qed.

Lemma step_scan_recorded MaxPointersN threads_n t0 ls t a s l s' :
  well_shaped MaxPointersN threads_n s ->
  scan_recorded MaxPointersN threads_n t0 ls s ->
  step t a s = Some (l, s') ->
  scan_recorded MaxPointersN threads_n t0 (ls ++ [l]) s'.
Proof.
  intros Hshape Hinv Hs it0 p0 i0 j0 Hpc.
  rewrite checks_of_snoc.
  destruct (decide (t0 = t)) as [->|Hne].
  - step_cases Hs; state_simpl;
      try rewrite list_lookup_insert_eq in Hpc by (by eapply lookup_lt_Some);
      simplify_eq; rewrite ?app_nil_r; try (by eapply Hinv).
    + (* the scan starts *)
      split_and!; [lia..| |].
      { intros <-. done. }
      exists (checks_of t ls), []. by rewrite app_nil_r.
    + (* a cell that holds something else: on to the next cell *)
      destruct (Hinv _ _ _ _ H0) as (Hi & Hj & Hij & pre & obs & Hobs & Hcells & Hne).
      destruct (shaped_cell_lookup _ _ _ _ _ j Hshape H2) as [Hlt _].
      pose proof (lookup_lt_Some _ _ _ H3) as Hjlt.
      destruct Hshape as (_ & Hm & _). rewrite Forall_lookup in Hm.
      rewrite (Hm _ _ H2) in Hjlt.
      split_and!; [lia..| |].
      { intros ->. lia. }
      exists pre, (obs ++ [((i0, j), v)]). split_and!.
      * unfold scan_of. rewrite fmap_app, app_assoc, Hobs. done.
      * by rewrite fmap_app, Hcells, cells_before_next_cell.
      * apply Forall_app. split; [done|]. constructor; [|done].
        simpl. by apply ptr_eqb_neq.
    + (* the cells of this thread are done: on to the next thread *)
      destruct (Hinv _ _ _ _ H0) as (Hi & Hj & Hij & pre & obs & Hobs & Hcells & Hne).
      destruct (shaped_cell_lookup _ _ _ _ _ j Hshape H2) as [Hlt Hnone].
      apply Hnone in H3.
      assert (j = MaxPointersN) as -> by lia.
      split_and!; [lia..|done|].
      exists pre, obs. by rewrite cells_before_next_thread.
  - rewrite (step_pcs_other _ _ _ _ _ _ Hs Hne) in Hpc.
    destruct (Hinv _ _ _ _ Hpc) as (Hi & Hj & Hij & pre & obs & Hobs).
    split_and!; try done. exists pre, obs.
    destruct l; rewrite ?app_nil_r; try done.
    apply step_checked_by in Hs as ->. by rewrite decide_False, app_nil_r.
Qed.

Lemma step_scans_recorded MaxPointersN threads_n ls t a s l s' :
  well_shaped MaxPointersN threads_n s ->
  scans_recorded MaxPointersN threads_n ls s ->
  step t a s = Some (l, s') ->
  scans_recorded MaxPointersN threads_n (ls ++ [l]) s'.
Proof. intros Hshape Hinv Hs t0. by eapply step_scan_recorded. Qed.

(** *** What a label says about its step *)

Lemma step_freed_inv t a s t' p s' :
  step t a s = Some (Freed t' p, s') ->
  t' = t /\
  exists it i j,
    pcs s !! t = Some (Scanning it p i j) /\
    threads_ (registry s) !! i = None /\
    destroyed s' = destroyed s ++ [p].
Proof. intros Hs. step_cases Hs. split; [done|]. eauto 10. Qed.

Lemma step_checked_inv t a s t' p c v s' :
  step t a s = Some (Checked t' p c v, s') ->
  t' = t /\
  load c (registry s) = Some v /\
  registry s' = registry s /\
  exists it, pcs s !! t = Some (Scanning it p c.1 c.2).
Proof.
  intros Hs. step_cases Hs; state_simpl; unfold load; simpl.
  all: rewrite H2; eauto.
Qed.

Lemma step_protected_inv t a s t' c p s' :
  step t a s = Some (Protected t' c p, s') ->
  t' = t /\ registry s' = registry s /\
  exists source, pcs s !! t = Some (ProtectTest c source p).
Proof. intros Hs. step_cases Hs; state_simpl. eauto. Qed.

(** *** A cell that holds a pointer stops the scans for it *)

Lemma step_load_stable c t a s l s' :
  step t a s = Some (l, s') ->
  (forall t' v, l <> Stored t' c v) ->
  load c (registry s') = load c (registry s).
Proof.
  intros Hs Hl. step_cases Hs; state_simpl; unfold do_clear;
    rewrite ?load_set_to_delete; try done.
  all: apply load_store_ne; intros ->; by eapply Hl.
Qed.

Lemma step_not_past c p t a s l s' :
  load c (registry s) = Some p ->
  not_past c p s ->
  step t a s = Some (l, s') ->
  not_past c p s' /\ (forall t', l <> Freed t' p).
Proof.
  intros Hc Hinv Hs. unfold not_past in *.
  destruct c as [ci cj]. unfold load in Hc. simpl in *.
  assert (Hfree : forall t', l <> Freed t' p).
  { intros t' ->. apply step_freed_inv in Hs as (-> & it & i & j & Hpc & Hnone & _).
    destruct (Hinv _ _ _ _ Hpc) as [Hlt|[-> _]].
    - apply lookup_ge_None in Hnone.
      destruct (threads_ (registry s) !! ci) eqn:Hci; [|done].
      apply lookup_lt_Some in Hci. lia.
    - by rewrite Hnone in Hc. }
  split; [|done].
  intros t0 it0 i0 j0 Hpc.
  destruct (decide (t0 = t)) as [->|Hne].
  - step_cases Hs; state_simpl;
      try rewrite list_lookup_insert_eq in Hpc by (by eapply lookup_lt_Some);
      simplify_eq; try (by eapply Hinv).
    + (* the scan starts *)
      destruct ci; [right|left]; lia.
    + (* next cell *)
      destruct (Hinv _ _ _ _ H0) as [Hlt|[-> Hle]]; [by left|].
      right. split; [done|].
      destruct (decide (j = cj)) as [->|]; [|lia].
      simplify_eq. by rewrite (proj2 (ptr_eqb_eq _ _)) in H4.
    + (* next thread *)
      destruct (Hinv _ _ _ _ H0) as [Hlt|[-> Hle]].
      * destruct (decide (S i = ci)) as [<-|]; [right|left]; lia.
      * simplify_eq. apply lookup_ge_None in H3.
        apply lookup_lt_Some in Hc. lia.
  - rewrite (step_pcs_other _ _ _ _ _ _ Hs Hne) in Hpc. by eapply Hinv.
Qed.

(** While a cell holds [p] and nothing is stored into it, no scan for [p]
    that has not yet passed the cell can end in destroying [p]. *)
Lemma run_held_not_freed c p sched :
  forall s ls s',
    run sched s = Some (ls, s') ->
    load c (registry s) = Some p ->
    not_past c p s ->
    (forall t v, Stored t c v ∉ ls) ->
    (forall t, Freed t p ∉ ls) /\
    load c (registry s') = Some p /\ not_past c p s'.
Proof.
  induction sched as [|[t a] sched IH]; intros s ls s' Hrun Hc Hinv Hst;
    simpl in Hrun.
  - injection Hrun as <- <-. split_and!; try done. intros t. apply not_elem_of_nil.
  - destruct (step t a s) as [[l s1]|] eqn:Hs; [|done].
    destruct (run sched s1) as [[ls1 s2]|] eqn:Hr; [|done].
    injection Hrun as <- <-.
    destruct (step_not_past _ _ _ _ _ _ _ Hc Hinv Hs) as [Hinv1 Hl].
    assert (Hc1 : load c (registry s1) = Some p).
    { rewrite <- Hc. eapply step_load_stable; [exact Hs|].
      intros t' v ->. apply (Hst t' v). by left. }
    destruct (IH _ _ _ Hr Hc1 Hinv1) as (Hfree & Hc2 & Hinv2).
    { intros t' v Hin. apply (Hst t' v). by right. }
    split_and!; try done.
    intros t' Hin. apply elem_of_cons in Hin as [Heq|Hin].
    + by eapply Hl.
    + by eapply Hfree.
Qed.

(** *** A thread protects through its own cells *)

Lemma step_valid_cell c t a s l s' :
  step t a s = Some (l, s') ->
  valid_cell c (registry s') <-> valid_cell c (registry s).
Proof.
  intros Hs. unfold valid_cell at 1.
  step_cases Hs; state_simpl; unfold do_clear; rewrite ?load_set_to_delete;
    try done.
  all: apply valid_cell_store.
Qed.

(** A step of thread [t] leaves the cells of the other threads alone. *)
Lemma step_load_other c t a s l s' :
  protects_own_cell s ->
  step t a s = Some (l, s') ->
  c.1 <> t ->
  load c (registry s') = load c (registry s).
Proof.
  intros Hinv Hs Hne.
  step_cases Hs; state_simpl; unfold do_clear; rewrite ?load_set_to_delete;
    try done.
  - apply get_hazard_ptr_Ok in H2 as [-> _].
    apply load_store_ne. intros <-. done.
  - destruct (Hinv _ _ _ _ H0 eq_refl) as [Hc _].
    apply load_store_ne. intros <-. done.
Qed.

Lemma step_protects_own_cell t a s l s' :
  protects_own_cell s ->
  step t a s = Some (l, s') ->
  protects_own_cell s'.
Proof.
  intros Hinv Hs t0 k c0 saved0 Hpc Hk.
  destruct (decide (t0 = t)) as [->|Hne].
  - step_cases Hs; state_simpl;
      try rewrite list_lookup_insert_eq in Hpc by (by eapply lookup_lt_Some);
      simplify_eq; simpl in Hk; simplify_eq.
    all: try (by eapply Hinv).
    + (* protect is called *)
      apply get_hazard_ptr_Ok in H2 as [-> Hv]. done.
    + (* the test of do_protect fails: on to the store *)
      destruct (Hinv _ _ _ _ H0 eq_refl) as (Hc & Hv & _). done.
    + (* the store of do_protect *)
      destruct (Hinv _ _ _ _ H0 eq_refl) as (Hc & Hv & _).
      split_and!; [done| |].
      * by apply valid_cell_store.
      * intros _. by apply load_store_eq.
  - rewrite (step_pcs_other _ _ _ _ _ _ Hs Hne) in Hpc.
    destruct (Hinv _ _ _ _ Hpc Hk) as (Hc & Hv & Hl). split_and!; [done| |].
    + by apply (step_valid_cell _ _ _ _ _ _ Hs).
    + rewrite (step_load_other c0 _ _ _ _ _ Hinv Hs); [done|]. by rewrite Hc.
Qed.

Lemma initial_protects_own_cell MaxPointersN threads_n garbage srcs :
  protects_own_cell (initial MaxPointersN threads_n garbage srcs).
Proof.
  intros t k c saved Hk. unfold initial in Hk. state_simpl.
  apply lookup_replicate in Hk as [-> _]. done.
Qed.

(** *** From a fresh registry *)

Lemma initial_scans_recorded MaxPointersN threads_n garbage srcs :
  scans_recorded MaxPointersN threads_n []
                 (initial MaxPointersN threads_n garbage srcs).
Proof.
  intros t it p i j Hk. unfold initial in Hk. state_simpl.
  apply lookup_replicate in Hk as [? _]. done.
Qed.

(** What holds in every state a run reaches from a fresh registry. *)
Lemma run_reaches MaxPointersN threads_n garbage srcs sched ls s :
  run sched (initial MaxPointersN threads_n garbage srcs) = Some (ls, s) ->
  well_shaped MaxPointersN threads_n s /\
  scans_recorded MaxPointersN threads_n ls s /\
  protects_own_cell s.
Proof.
  intros Hrun.
  apply (run_invariant
           (fun ls s => well_shaped MaxPointersN threads_n s /\
                        scans_recorded MaxPointersN threads_n ls s /\
                        protects_own_cell s)) with (ls0 := []) in Hrun; [done| |].
  - intros ls0 s0 t a l s1 (H1 & H2 & H3) Hs. split_and!.
    + by eapply step_well_shaped.
    + by eapply step_scans_recorded.
    + by eapply step_protects_own_cell.
  - split_and!.
    + apply initial_well_shaped.
    + apply initial_scans_recorded.
    + apply initial_protects_own_cell.
Qed.

Lemma run_destroyed sched : forall s ls s',
  run sched s = Some (ls, s') -> destroyed s' = destroyed s ++ freed_of ls.
Proof.
  induction sched as [|[t a] sched IH]; intros s ls s' Hrun; simpl in Hrun.
  - injection Hrun as <- <-. by rewrite app_nil_r.
  - destruct (step t a s) as [[l s1]|] eqn:Hs; [|done].
    destruct (run sched s1) as [[ls1 s2]|] eqn:Hr; [|done].
    injection Hrun as <- <-. rewrite (IH _ _ _ Hr).
    unfold freed_of. simpl.
    step_cases Hs; state_simpl; try done.
    by rewrite <- app_assoc.
Qed.

Lemma freed_after_full_scan MaxPointersN threads_n garbage srcs sched l1 t p l2 s :
  run sched (initial MaxPointersN threads_n garbage srcs)
    = Some (l1 ++ Freed t p :: l2, s) ->
  exists pre obs,
    checks_of t l1 = pre ++ scan_of p obs /\
    obs.*1 = all_cells MaxPointersN threads_n /\
    Forall (fun cv => cv.2 <> p) obs.
Proof.
  intros Hrun.
  apply run_split_at in Hrun
    as (sch1 & t' & a & sch2 & s1 & s2 & -> & Hr1 & Hs & Hr2).
  apply run_reaches in Hr1 as (Hshape & Hscan & _).
  apply step_freed_inv in Hs as (-> & it & i & j & Hpc & Hnone & _).
  destruct (Hscan _ _ _ _ _ Hpc) as (Hi & Hj & Hij & pre & obs & Hobs & Hcells & Hne).
  apply (shaped_thread_lookup _ _ _ _ Hshape) in Hnone.
  assert (i = threads_n) as -> by lia. rewrite Hij in Hcells by done.
  by exists pre, obs.
Qed.

Lemma protected_is_published MaxPointersN threads_n garbage srcs sched l1 r c p s :
  run sched (initial MaxPointersN threads_n garbage srcs)
    = Some (l1 ++ [Protected r c p], s) ->
  p <> nullptr ->
  c.1 = r /\ load c (registry s) = Some p.
Proof.
  intros Hrun Hp.
  apply run_split_at in Hrun
    as (sch1 & t' & a & sch2 & s1 & s2 & -> & Hr1 & Hs & Hr2).
  pose proof (run_length _ _ _ _ Hr2) as Hlen.
  destruct sch2; [|done]. simpl in Hr2. injection Hr2 as ->.
  apply run_reaches in Hr1 as (_ & _ & Hprot).
  apply step_protected_inv in Hs as (-> & Hreg & src & Hpc).
  destruct (Hprot _ _ _ _ Hpc eq_refl) as (Hc & _ & Hl). rewrite Hreg. auto.
Qed.

Lemma elem_of_all_cells MaxPointersN threads_n c :
  c ∈ all_cells MaxPointersN threads_n <->
  c.1 < threads_n /\ c.2 < MaxPointersN.
Proof.
  unfold all_cells, cells_before. simpl. rewrite app_nil_r.
  rewrite list_elem_of_In, in_flat_map. split.
  - intros (i & Hi & Hc). apply in_seq in Hi.
    apply list_elem_of_In, list_elem_of_fmap in Hc as (j & -> & Hj).
    apply list_elem_of_In, in_seq in Hj. simpl. lia.
  - intros [Hi Hj]. exists c.1. split; [apply in_seq; lia|].
    apply list_elem_of_In, list_elem_of_fmap. exists c.2.
    split; [by destruct c|]. apply list_elem_of_In, in_seq. lia.
Qed.

Lemma elem_of_checks_of t p c v ls :
  (p, c, v) ∈ checks_of t ls -> Checked t p c v ∈ ls.
Proof.
  unfold checks_of. rewrite list_elem_of_omap. intros (l & Hl & Heq).
  destruct l; try done. case_decide; simplify_eq. done.
Qed.

(** Before a pointer is destroyed, the destroying thread has loaded every
    cell while scanning for it, and each cell held something else when it
    was loaded. *)
Lemma freed_after_checking_cell MaxPointersN threads_n garbage srcs
    sched l1 t p l2 s c :
  run sched (initial MaxPointersN threads_n garbage srcs)
    = Some (l1 ++ Freed t p :: l2, s) ->
  c.1 < threads_n -> c.2 < MaxPointersN ->
  exists sch_a la s_a a v s_b lb,
    run sch_a (initial MaxPointersN threads_n garbage srcs) = Some (la, s_a) /\
    step t a s_a = Some (Checked t p c v, s_b) /\
    l1 = la ++ Checked t p c v :: lb /\
    load c (registry s_a) = Some v /\
    v <> p.
Proof.
  intros Hrun Hi Hj.
  destruct (freed_after_full_scan _ _ _ _ _ _ _ _ _ _ Hrun)
    as (pre & obs & Hobs & Hcells & Hne).
  assert (Hc : c ∈ obs.*1)
    by (rewrite Hcells; by apply elem_of_all_cells).
  apply list_elem_of_fmap in Hc as ([c' v] & -> & Hin). simpl in *.
  assert (Hv : v <> p).
  { rewrite List.Forall_forall in Hne. by apply (Hne (c', v)), list_elem_of_In. }
  assert (Hl : Checked t p c' v ∈ l1).
  { apply elem_of_checks_of. rewrite Hobs. apply elem_of_app. right.
    unfold scan_of. apply list_elem_of_fmap. by exists (c', v). }
  apply list_elem_of_split in Hl as (la & lb & ->).
  rewrite <- app_assoc in Hrun. simpl in Hrun.
  apply run_split_at in Hrun
    as (sch_a & t' & a & sch2 & s_a & s_b & -> & Hr1 & Hs & Hr2).
  pose proof (step_checked_inv _ _ _ _ _ _ _ _ Hs) as (<- & Hload & _).
  exists sch_a, la, s_a, a, v, s_b, lb. done.
Qed.

(** C1: no pointer is destroyed while a hazard cell is seen to hold it.
    Along every run of threads calling [protect], [clear] and [retire] on a
    fresh registry, in whatever order their atomic steps are taken:
    - a [Checked] step reads what the cell holds at that instant, and
      [destroyed] grows by the pointers of the [Freed] steps only;
    - when thread [t] destroys [p], the checks [t] made just before are a
      scan of all the cells, in order, none of which showed [p]; so for
      every cell there is an instant of that scan at which [t] loaded it and
      it held something else;
    - once a [protect] has returned a non-null [p] for cell [c], and as long
      as nothing is stored into [c], no scan for [p] that starts afterwards
      ends in destroying [p]: the cell still holds [p] and [p] is not among
      the pointers destroyed meanwhile. *)
Theorem no_free_while_hazard_seen
    (MaxPointersN threads_n : nat) (garbage : nat -> nat -> ptr)
    (srcs : nat -> ptr) :
  (forall t a s t' p c v s',
     step t a s = Some (Checked t' p c v, s') ->
     t' = t /\ load c (registry s) = Some v /\ registry s' = registry s /\
     exists it, pcs s !! t = Some (Scanning it p c.1 c.2)) /\
  (forall sched s ls s',
     run sched s = Some (ls, s') ->
     destroyed s' = destroyed s ++ freed_of ls) /\
  (forall sched l1 t p l2 s,
     run sched (initial MaxPointersN threads_n garbage srcs)
       = Some (l1 ++ Freed t p :: l2, s) ->
     (exists pre obs,
        checks_of t l1 = pre ++ scan_of p obs /\
        obs.*1 = all_cells MaxPointersN threads_n /\
        Forall (fun cv => cv.2 <> p) obs) /\
     (forall c, c.1 < threads_n -> c.2 < MaxPointersN ->
        exists sch_a la s_a a v s_b lb,
          run sch_a (initial MaxPointersN threads_n garbage srcs)
            = Some (la, s_a) /\
          step t a s_a = Some (Checked t p c v, s_b) /\
          l1 = la ++ Checked t p c v :: lb /\
          load c (registry s_a) = Some v /\
          v <> p)) /\
  (forall sch1 l1 r c p s1 sch2 l2 s2,
     run sch1 (initial MaxPointersN threads_n garbage srcs)
       = Some (l1 ++ [Protected r c p], s1) ->
     p <> nullptr ->
     (forall t it i j, pcs s1 !! t <> Some (Scanning it p i j)) ->
     run sch2 s1 = Some (l2, s2) ->
     (forall t v, Stored t c v ∉ l2) ->
     load c (registry s1) = Some p /\
     (forall t, Freed t p ∉ l2) /\
     (p ∉ freed_of l2) /\
     load c (registry s2) = Some p).
Proof.
  split_and!.
  - intros t a s t' p c v s'. apply step_checked_inv.
  - intros sched. apply run_destroyed.
  - intros sched l1 t p l2 s Hrun. split.
    + by eapply freed_after_full_scan.
    + intros c. by eapply freed_after_checking_cell.
  - intros sch1 l1 r c p s1 sch2 l2 s2 Hr1 Hp Hidle Hr2 Hst.
    destruct (protected_is_published _ _ _ _ _ _ _ _ _ _ Hr1 Hp) as [_ Hc].
    assert (Hnp : not_past c p s1).
    { intros t it i j Hpc. by destruct (Hidle t it i j). }
    destruct (run_held_not_freed _ _ _ _ _ _ Hr2 Hc Hnp Hst) as (Hfree & Hc2 & _).
    split_and!; try done.
    unfold freed_of. rewrite list_elem_of_omap. intros (l & Hl & Heq).
    destruct l; simplify_eq. by eapply Hfree.
Qed.

Lemma no_free_while_hazard_seen_witness :
  let s0 := initial 1 2 (fun _ _ => 9%N) (fun _ => 5%N) in
  (* thread 1 retires 5 while nobody protects it *)
  let unprotected :=
    [(1, CallRetire 5%N); (1, Continue); (1, Continue); (1, Continue);
     (1, Continue); (1, Continue); (1, Continue)] in
  (* thread 0 protects 5, read from source 0 *)
  let reader :=
    [(0, CallProtect 0 0); (0, Continue); (0, Continue); (0, Continue)] in
  (* thread 1 then retires 5 and sweeps *)
  let sweeper :=
    [(1, CallRetire 5%N); (1, Continue); (1, Continue); (1, Continue)] in
  (exists s pre obs,
     run unprotected s0 =
       Some ([Silent; Silent; Checked 1 5%N (0, 0) 0%N; Silent;
              Checked 1 5%N (1, 0) 0%N; Silent] ++ Freed 1 5%N :: [], s) /\
     checks_of 1 [Silent; Silent; Checked 1 5%N (0, 0) 0%N; Silent;
                  Checked 1 5%N (1, 0) 0%N; Silent] = pre ++ scan_of 5%N obs /\
     obs.*1 = [(0, 0); (1, 0)] /\
     Forall (fun cv => cv.2 <> 5%N) obs) /\
  (exists s1 s2,
     run reader s0 =
       Some ([Silent; Silent; Stored 0 (0, 0) 5%N] ++ [Protected 0 (0, 0) 5%N], s1) /\
     run sweeper s1 =
       Some ([Silent; Silent; Checked 1 5%N (0, 0) 5%N; Silent], s2) /\
     load (0, 0) (registry s2) = Some 5%N /\
     destroyed s2 = []).
Proof.
  intros s0 unprotected reader sweeper.
  pose proof (no_free_while_hazard_seen 1 2 (fun _ _ => 9%N) (fun _ => 5%N))
    as (_ & _ & Hscan & Hreader).
  split.
  - destruct (run unprotected s0) as [[ls s]|] eqn:Hrun; [|by vm_compute in Hrun].
    assert (Hls : ls = [Silent; Silent; Checked 1 5%N (0, 0) 0%N; Silent;
                        Checked 1 5%N (1, 0) 0%N; Silent] ++ Freed 1 5%N :: [])
      by (vm_compute in Hrun; by injection Hrun as <- _).
    subst ls.
    destruct (Hscan _ _ _ _ _ _ Hrun) as [(pre & obs & H1 & H2 & H3) _].
    exists s, pre, obs. done.
  - destruct (run reader s0) as [[l1 s1]|] eqn:Hr1; [|by vm_compute in Hr1].
    assert (Hl1 : l1 = [Silent; Silent; Stored 0 (0, 0) 5%N]
                       ++ [Protected 0 (0, 0) 5%N])
      by (vm_compute in Hr1; by injection Hr1 as <- _).
    subst l1.
    assert (Hs1 : s1 = {| registry :=
                            {| threads_ := [ {| hazard := [5%N]; to_delete := [] |};
                                             {| hazard := [0%N]; to_delete := [] |} ] |};
                          sources := sources s1; destroyed := [];
                          pcs := [Idle; Idle] |}).
    { vm_compute in Hr1. by injection Hr1 as <-. }
    destruct (run sweeper s1) as [[l2 s2]|] eqn:Hr2;
      [|rewrite Hs1 in Hr2; by vm_compute in Hr2].
    assert (Hl2 : l2 = [Silent; Silent; Checked 1 5%N (0, 0) 5%N; Silent] /\
                  destroyed s2 = []).
    { rewrite Hs1 in Hr2. vm_compute in Hr2. by injection Hr2 as <- <-. }
    destruct Hl2 as [-> Hd].
    assert (Hp : 5%N <> nullptr) by discriminate.
    assert (Hidle : forall t it i j, pcs s1 !! t <> Some (Scanning it 5%N i j)).
    { rewrite Hs1. simpl. intros [|[|t]] it i j; discriminate. }
    assert (Hst : forall t v,
               Stored t (0, 0) v ∉
               [Silent; Silent; Checked 1 5%N (0, 0) 5%N; Silent]).
    { intros t v Hin.
      repeat (apply elem_of_cons in Hin as [Heq|Hin]; [discriminate|]).
      by apply elem_of_nil in Hin. }
    destruct (Hreader _ _ _ _ _ _ _ _ _ Hr1 Hp Hidle Hr2 Hst) as (_ & _ & _ & Hc).
    exists s1, s2. done.
Defined.

(** ** [retire] among other threads *)

(** *** How the scans of a call end *)

Lemma verdicts_snoc t ls l :
  verdicts t (ls ++ [l]) = verdicts t ls ++ verdicts t [l].
Proof. unfold verdicts. by rewrite omap_app. Qed.

Lemma kept_of_snoc vs x :
  kept_of (vs ++ [x]) = kept_of vs ++ (if x.2 then [x.1] else []).
Proof. unfold kept_of. rewrite omap_app. simpl. by destruct (x.2). Qed.

Lemma step_label_other t a s l s' t0 :
  step t a s = Some (l, s') -> t0 <> t -> verdicts t0 [l] = [].
Proof.
  intros Hs Hne. step_cases Hs; simpl; try done.
  all: by rewrite decide_False.
Qed.

Lemma step_to_delete_other t a s l s' t0 :
  step t a s = Some (l, s') -> t0 <> t ->
  to_delete_at t0 (registry s') = to_delete_at t0 (registry s).
Proof.
  intros Hs Hne. step_cases Hs; state_simpl; unfold do_clear;
    rewrite ?to_delete_at_store; try done.
  all: by apply to_delete_at_set_to_delete_ne.
Qed.

Lemma delete_middle {A : Type} (l1 l2 : list A) (x : A) :
  delete (length l1) (l1 ++ x :: l2) = l1 ++ l2.
Proof. induction l1 as [|y l1 IH]; simpl; [done|]. by rewrite IH. Qed.

Lemma to_delete_at_nonempty t hp :
  to_delete_at t hp <> [] -> t < length (threads_ hp).
Proof.
  unfold to_delete_at. intros H.
  destruct (threads_ hp !! t) eqn:Ht; [|done]. by eapply lookup_lt_Some.
Qed.

Lemma step_sweeping t pend ls t' a s l s' :
  sweeping t pend ls s ->
  (t' = t -> a = Continue) ->
  step t' a s = Some (l, s') ->
  sweeping t pend (ls ++ [l]) s'.
Proof.
  intros (rest & k & Hpc & Hat & Hpend & Hlist) Ha Hs.
  unfold sweeping. rewrite verdicts_snoc.
  destruct (decide (t' = t)) as [->|Hne].
  - rewrite (Ha eq_refl) in Hs. clear Ha.
    assert (Ht : t < length (pcs s)) by (by eapply lookup_lt_Some).
    step_cases Hs; state_simpl; inversion Hat; subst; simpl;
      rewrite ?decide_True by done;
      repeat match goal with
             | H : ptr_eqb _ _ = _ |- _ => rewrite H
             end;
      rewrite ?app_nil_r, ?list_lookup_insert_eq by done.
    + (* the loop test finds an entry *)
      rewrite Hlist, lookup_app_r, Nat.sub_diag in H1 by done.
      destruct rest as [|q rest']; simplify_eq/=.
      exists (p0 :: rest'), (Scanning (length (kept_of (verdicts t ls))) p0 0 0).
      split_and!; try done. by eapply at_scan.
    + (* the loop test finds the end *)
      rewrite Hlist, lookup_app_r, Nat.sub_diag in H1 by done.
      destruct rest as [|q rest']; simplify_eq/=.
      exists [], Idle. split_and!; try done. by apply at_return.
    + (* a cell holds the entry: it is kept *)
      match goal with
      | H : ptr_eqb _ _ = true |- _ => apply ptr_eqb_eq in H as ->
      end.
      exists rest', (RetireLoop (S (length (kept_of (verdicts t ls))))).
      rewrite kept_of_snoc, fmap_app, <- !app_assoc. simpl.
      split_and!; try done.
      apply at_loop. rewrite length_app. simpl. lia.
    + (* a cell holds something else *)
      exists (p0 :: rest'), (Scanning (length (kept_of (verdicts t ls))) p0 i (S j)).
      split_and!; try done. by eapply at_scan.
    + (* next thread *)
      exists (p0 :: rest'), (Scanning (length (kept_of (verdicts t ls))) p0 (S i) 0).
      split_and!; try done. by eapply at_scan.
    + (* no cell held the entry: it is destroyed and erased *)
      exists rest', (RetireLoop (length (kept_of (verdicts t ls)))).
      rewrite kept_of_snoc, fmap_app, <- !app_assoc. simpl. rewrite app_nil_r.
      split_and!; try done.
      * by apply at_loop.
      * rewrite to_delete_at_set_to_delete.
        -- by rewrite Hlist, delete_middle.
        -- apply to_delete_at_nonempty. rewrite Hlist. by destruct (kept_of _).
  - rewrite (step_label_other _ _ _ _ _ _ Hs) by done. rewrite app_nil_r.
    exists rest, k. split_and!; try done.
    + by rewrite (step_pcs_other _ _ _ _ _ _ Hs).
    + by rewrite (step_to_delete_other _ _ _ _ _ _ Hs).
Qed.

Lemma run_sweeping t pend sched :
  forall ls0 s ls s',
    sweeping t pend ls0 s ->
    Forall (fun x : nat * action => x.1 = t -> x.2 = Continue) sched ->
    run sched s = Some (ls, s') ->
    sweeping t pend (ls0 ++ ls) s'.
Proof.
  induction sched as [|[t' a] sched IH]; intros ls0 s ls s' Hinv Hsched Hrun;
    simpl in Hrun.
  - injection Hrun as <- <-. by rewrite app_nil_r.
  - destruct (step t' a s) as [[l s1]|] eqn:Hs; [|done].
    destruct (run sched s1) as [[ls1 s2]|] eqn:Hr; [|done].
    injection Hrun as <- <-.
    inversion Hsched as [|x sched' Ha Hsched']; subst.
    replace (ls0 ++ l :: ls1) with ((ls0 ++ [l]) ++ ls1)
      by (by rewrite <- app_assoc).
    eapply IH; [|done|exact Hr]. by eapply step_sweeping.
Qed.

Lemma swept_kept_permutation vs :
  swept_of vs ++ kept_of vs ≡ₚ vs.*1.
Proof.
  induction vs as [|[q []] vs IH]; csimpl; [done| |].
  - rewrite <- IH. symmetry. apply Permutation_middle.
  - by rewrite <- IH.
Qed.

(** A [retire] that runs while other threads take their steps. *)
Lemma retire_among_threads t p s0 sched l0 ls s' :
  pcs s0 !! t = Some Idle ->
  Forall (fun x : nat * action => x.1 = t -> x.2 = Continue) sched ->
  run ((t, CallRetire p) :: sched) s0 = Some (l0 :: ls, s') ->
  pcs s' !! t = Some Idle ->
  t < length (threads_ (registry s0)) /\
  (verdicts t ls).*1 = pending t p (registry s0) /\
  to_delete_at t (registry s') = kept_of (verdicts t ls) /\
  swept_of (verdicts t ls) ++ kept_of (verdicts t ls)
    ≡ₚ pending t p (registry s0).
Proof.
  intros Hidle Hsched Hrun Hret. cbn [run] in Hrun.
  destruct (step t (CallRetire p) s0) as [[l s1]|] eqn:Hs; [|done].
  destruct (run sched s1) as [[ls1 s2]|] eqn:Hr; [|done].
  injection Hrun as <- <- <-.
  assert (Ht : t < length (threads_ (registry s0))).
  { unfold step in Hs. rewrite Hidle in Hs.
    destruct (bool_decide (t < length (threads_ (registry s0)))) eqn:Hb; [|done].
    by apply bool_decide_eq_true_1 in Hb. }
  assert (Hinv : sweeping t (pending t p (registry s0)) [] s1).
  { exists (pending t p (registry s0)), (RetireLoop 0).
    unfold step in Hs. rewrite Hidle in Hs.
    rewrite bool_decide_eq_true_2 in Hs by done. simpl in Hs.
    injection Hs as <- <-. state_simpl.
    rewrite list_lookup_insert_eq by (by eapply lookup_lt_Some).
    split_and!; try done; [by apply at_loop|].
    unfold pending. destruct (to_bool p); simpl.
    - by apply to_delete_at_set_to_delete.
    - by rewrite app_nil_r. }
  destruct (run_sweeping _ _ _ _ _ _ _ Hinv Hsched Hr)
    as (rest & k & Hpc & Hat & Hpend & Hlist).
  simpl in *. rewrite Hret in Hpc. injection Hpc as <-.
  inversion Hat; subst. rewrite app_nil_r in *.
  split_and!; try done.
  rewrite Hpend. apply swept_kept_permutation.
Qed.

Lemma elem_of_kept_of_verdicts t ls q :
  q ∈ kept_of (verdicts t ls) -> exists c, Checked t q c q ∈ ls.
Proof.
  unfold kept_of, verdicts. rewrite list_elem_of_omap.
  intros ([q' b] & Hin & Hq). simpl in Hq. destruct b; simplify_eq.
  apply list_elem_of_omap in Hin as (l & Hl & Hv).
  destruct l as [| | |t' p c v|]; try done; case_decide; try done; subst.
  destruct (ptr_eqb v p) eqn:Heq; simplify_eq.
  apply ptr_eqb_eq in Heq as ->. eauto.
Qed.

Lemma elem_of_swept_of_verdicts t ls q :
  q ∈ swept_of (verdicts t ls) <-> Freed t q ∈ ls.
Proof.
  unfold swept_of, verdicts. rewrite list_elem_of_omap. split.
  - intros ([q' b] & Hin & Hq). simpl in Hq. destruct b; simplify_eq.
    apply list_elem_of_omap in Hin as (l & Hl & Hv).
    destruct l as [| | |t' p c v|t' p]; try done; case_decide; try done; subst.
    + by destruct (ptr_eqb v p).
    + by simplify_eq.
  - intros Hin. exists (q, false). split; [|done].
    apply list_elem_of_omap. exists (Freed t q). split; [done|].
    by rewrite decide_True.
Qed.

Lemma elem_of_freed_of ls q :
  q ∈ freed_of ls <-> exists t, Freed t q ∈ ls.
Proof.
  unfold freed_of. rewrite list_elem_of_omap. split.
  - intros (l & Hl & Hq). destruct l; simplify_eq. eauto.
  - intros [t Hin]. by exists (Freed t q).
Qed.

(** *** When no cell changes meanwhile *)

Lemma shaped_load MaxPointersN threads_n s c v :
  well_shaped MaxPointersN threads_n s ->
  load c (registry s) = Some v -> c.1 < threads_n /\ c.2 < MaxPointersN.
Proof.
  intros (Hn & Hm & _) Hl. unfold load in Hl.
  destruct (threads_ (registry s) !! c.1) as [data|] eqn:Hd; [|done].
  rewrite Forall_lookup in Hm. specialize (Hm _ _ Hd).
  apply lookup_lt_Some in Hl, Hd. lia.
Qed.

Lemma step_sweeping_undisturbed MaxPointersN threads_n t pend hp0 ls t' a s l s' :
  sweeping_undisturbed MaxPointersN threads_n t pend hp0 ls s ->
  (t' = t -> a = Continue) ->
  (forall t'' c v, l <> Stored t'' c v) ->
  step t' a s = Some (l, s') ->
  sweeping_undisturbed MaxPointersN threads_n t pend hp0 (ls ++ [l]) s'.
Proof.
  intros (Hshape & Hscan & Hsweep & Hload & Hhonest & Hflags) Ha Hst Hs.
  assert (Hhonest' : forall q c v,
             (q, c, v) ∈ checks_of t (ls ++ [l]) -> load c hp0 = Some v).
  { intros q c v. rewrite checks_of_snoc, elem_of_app. intros [Hin|Hin].
    - by eapply Hhonest.
    - destruct l as [| | |t'' q' c' v'|]; try (by apply elem_of_nil in Hin).
      case_decide; [|by apply elem_of_nil in Hin].
      apply list_elem_of_singleton in Hin. simplify_eq.
      apply step_checked_inv in Hs as (_ & Hl & _). by rewrite <- Hload. }
  split_and!.
  - by eapply step_well_shaped.
  - by eapply step_scan_recorded.
  - by eapply step_sweeping.
  - intros c. rewrite <- Hload. eapply step_load_stable; [exact Hs|].
    intros t'' v. apply Hst.
  - exact Hhonest'.
  - rewrite verdicts_snoc. apply Forall_app. split; [done|].
    destruct l as [| | |t'' q c v|t'' q]; simpl; try done.
    + (* a check *)
      case_decide; [|done]. subst t''.
      destruct (ptr_eqb v q) eqn:Heq; [|done].
      apply ptr_eqb_eq in Heq as ->. constructor; [|done]. simpl.
      symmetry. apply is_protected_true. exists c.
      apply (Hhonest' q c q). rewrite checks_of_snoc, elem_of_app. right.
      rewrite decide_True by done. by apply list_elem_of_singleton.
    + (* the entry is destroyed *)
      case_decide; [|done]. subst t''. constructor; [|done]. simpl.
      symmetry. apply is_protected_false. intros c Hc.
      apply step_freed_inv in Hs as (-> & it & i & j & Hpc & Hnone & _).
      destruct (Hscan _ _ _ _ Hpc)
        as (Hi & Hj & Hij & pre & obs & Hobs & Hcells & Hne).
      apply (shaped_thread_lookup _ _ _ _ Hshape) in Hnone.
      assert (i = threads_n) as -> by lia. rewrite Hij in Hcells by done.
      assert (Hin : c ∈ obs.*1).
      { rewrite Hcells. apply elem_of_all_cells.
        apply (shaped_load _ _ s c q Hshape). by rewrite Hload. }
      apply list_elem_of_fmap in Hin as ([c' v] & -> & Hin). simpl in *.
      assert (Hv : load c' hp0 = Some v).
      { apply (Hhonest q c' v). rewrite Hobs. apply elem_of_app. right.
        unfold scan_of. apply list_elem_of_fmap. by exists (c', v). }
      rewrite Hc in Hv. injection Hv as <-.
      rewrite List.Forall_forall in Hne.
      apply (Hne (c', q)); [by apply list_elem_of_In|done].
Qed.

Lemma run_sweeping_undisturbed MaxPointersN threads_n t pend hp0 sched :
  forall ls0 s ls s',
    sweeping_undisturbed MaxPointersN threads_n t pend hp0 ls0 s ->
    Forall (fun x : nat * action => x.1 = t -> x.2 = Continue) sched ->
    (forall t' c v, Stored t' c v ∉ ls) ->
    run sched s = Some (ls, s') ->
    sweeping_undisturbed MaxPointersN threads_n t pend hp0 (ls0 ++ ls) s'.
Proof.
  induction sched as [|[t' a] sched IH];
    intros ls0 s ls s' Hinv Hsched Hst Hrun; simpl in Hrun.
  - injection Hrun as <- <-. by rewrite app_nil_r.
  - destruct (step t' a s) as [[l s1]|] eqn:Hs; [|done].
    destruct (run sched s1) as [[ls1 s2]|] eqn:Hr; [|done].
    injection Hrun as <- <-.
    inversion Hsched as [|x sched' Ha Hsched']; subst.
    replace (ls0 ++ l :: ls1) with ((ls0 ++ [l]) ++ ls1)
      by (by rewrite <- app_assoc).
    eapply IH; [|done| |exact Hr].
    + eapply step_sweeping_undisturbed; [done|done| |exact Hs].
      intros t'' c v ->. apply (Hst t'' c v). by left.
    + intros t'' c v Hin. apply (Hst t'' c v). by right.
Qed.

Lemma kept_of_flags (f : ptr -> bool) vs :
  Forall (fun x : ptr * bool => x.2 = f x.1) vs ->
  kept_of vs = List.filter f vs.*1 /\
  swept_of vs = List.filter (fun q => negb (f q)) vs.*1.
Proof.
  induction 1 as [|[q b] vs Hb _ [IH1 IH2]]; [done|].
  simpl in Hb. subst b. csimpl. unfold kept_of, swept_of in *. simpl.
  destruct (f q); simpl; by rewrite IH1, IH2.
Qed.

(** As long as no hazard cell is stored into, a [retire] that runs among
    the steps of other threads leaves the list, and destroys the entries,
    that [retire] run in one go on the registry it started from does. *)
Lemma retire_steps_as_retire MaxPointersN threads_n t p s0 sched l0 ls s' :
  well_shaped MaxPointersN threads_n s0 ->
  pcs s0 !! t = Some Idle ->
  Forall (fun x : nat * action => x.1 = t -> x.2 = Continue) sched ->
  run ((t, CallRetire p) :: sched) s0 = Some (l0 :: ls, s') ->
  pcs s' !! t = Some Idle ->
  (forall t' c v, Stored t' c v ∉ ls) ->
  exists hp' destroyed,
    retire t p (registry s0) = Ok (hp', destroyed) /\
    to_delete_at t (registry s') = to_delete_at t hp' /\
    swept_of (verdicts t ls) = destroyed /\
    (forall c, load c (registry s') = load c hp').
Proof.
  intros Hshape Hidle Hsched Hrun Hret Hst. cbn [run] in Hrun.
  destruct (step t (CallRetire p) s0) as [[l s1]|] eqn:Hs; [|done].
  destruct (run sched s1) as [[ls1 s2]|] eqn:Hr; [|done].
  injection Hrun as <- <- <-.
  assert (Ht : t < length (threads_ (registry s0))).
  { unfold step in Hs. rewrite Hidle in Hs.
    destruct (bool_decide (t < length (threads_ (registry s0)))) eqn:Hb; [|done].
    by apply bool_decide_eq_true_1 in Hb. }
  assert (Hinv : sweeping_undisturbed MaxPointersN threads_n t
                   (pending t p (registry s0)) (registry s0) [] s1).
  { pose proof (step_well_shaped _ _ _ _ _ _ _ Hshape Hs) as Hshape1.
    unfold step in Hs. rewrite Hidle in Hs.
    rewrite bool_decide_eq_true_2 in Hs by done. simpl in Hs.
    injection Hs as <- <-. split_and!; try done.
    - intros it q i j Hpc. state_simpl.
      rewrite list_lookup_insert_eq in Hpc by (by eapply lookup_lt_Some).
      done.
    - exists (pending t p (registry s0)), (RetireLoop 0). state_simpl.
      rewrite list_lookup_insert_eq by (by eapply lookup_lt_Some).
      split_and!; try done; [by apply at_loop|].
      unfold pending. destruct (to_bool p); simpl.
      + by apply to_delete_at_set_to_delete.
      + by rewrite app_nil_r.
    - intros c. state_simpl. destruct (to_bool p); [|done].
      apply load_set_to_delete.
    - intros q c v Hin. by apply elem_of_nil in Hin. }
  destruct (run_sweeping_undisturbed _ _ _ _ _ _ _ _ _ _ Hinv Hsched Hst Hr)
    as (_ & _ & (rest & k & Hpc & Hat & Hpend & Hlist) & Hload & _ & Hflags).
  change ([] ++ ls1) with ls1 in *. rewrite Hret in Hpc. injection Hpc as <-.
  inversion Hat; subst. rewrite app_nil_r in *.
  destruct (kept_of_flags (fun q => is_protected q (registry s0)) _ Hflags)
    as [Hkept Hswept].
  eexists _, _. split; [by apply retire_Ok|].
  rewrite to_delete_at_set_to_delete by done.
  rewrite Hlist, Hkept, Hswept, <- Hpend. split_and!; try done.
  intros c. by rewrite load_set_to_delete.
Qed.

(** C4: for an in-range [thread_id], [retire (thread_id, p)] returns, and
    afterwards the retirement list of that thread holds exactly the previous
    entries, plus [p] when it is not null, whose address the scan found in
    some hazard cell, in their original order; the entries that no cell held
    have been destroyed, in that order, and are gone from the list.  Nothing
    else in the registry changes.

    The same holds when the call runs among the steps of other threads:
    the scans of the call, in order, go through the previous entries plus
    [p]; the list the call leaves is made of the entries whose scan ended at
    a cell that held them, in their original order, and every other entry
    was destroyed by the call.  When no hazard cell is stored into
    meanwhile, the call cut into steps and the call in one go leave the
    same list and destroy the same entries. *)
Theorem retire_keeps_exactly_the_protected thread_id p hp :
  thread_id < length (threads_ hp) ->
  (exists hp' destroyed,
     retire thread_id p hp = Ok (hp', destroyed) /\
     to_delete_at thread_id hp' =
       List.filter (fun q => is_protected q hp) (pending thread_id p hp) /\
     destroyed =
       List.filter (fun q => negb (is_protected q hp)) (pending thread_id p hp) /\
     (forall q, q ∈ to_delete_at thread_id hp' <->
                q ∈ pending thread_id p hp /\ exists c, load c hp = Some q) /\
     (forall q, q ∈ destroyed <->
                q ∈ pending thread_id p hp /\ forall c, load c hp <> Some q) /\
     (forall c, load c hp' = load c hp) /\
     (forall t, t <> thread_id -> to_delete_at t hp' = to_delete_at t hp)) /\
  (forall s0 sched l0 ls s',
     registry s0 = hp ->
     pcs s0 !! thread_id = Some Idle ->
     Forall (fun x : nat * action => x.1 = thread_id -> x.2 = Continue) sched ->
     run ((thread_id, CallRetire p) :: sched) s0 = Some (l0 :: ls, s') ->
     pcs s' !! thread_id = Some Idle ->
     (verdicts thread_id ls).*1 = pending thread_id p hp /\
     to_delete_at thread_id (registry s') = kept_of (verdicts thread_id ls) /\
     (forall q, q ∈ to_delete_at thread_id (registry s') ->
                exists c, Checked thread_id q c q ∈ ls) /\
     (forall q, q ∈ swept_of (verdicts thread_id ls) ->
                Freed thread_id q ∈ ls /\ q ∈ destroyed s')) /\
  (forall MaxPointersN threads_n s0 sched l0 ls s',
     registry s0 = hp ->
     well_shaped MaxPointersN threads_n s0 ->
     pcs s0 !! thread_id = Some Idle ->
     Forall (fun x : nat * action => x.1 = thread_id -> x.2 = Continue) sched ->
     run ((thread_id, CallRetire p) :: sched) s0 = Some (l0 :: ls, s') ->
     pcs s' !! thread_id = Some Idle ->
     (forall t c v, Stored t c v ∉ ls) ->
     exists hp' destroyed,
       retire thread_id p hp = Ok (hp', destroyed) /\
       to_delete_at thread_id (registry s') = to_delete_at thread_id hp' /\
       swept_of (verdicts thread_id ls) = destroyed /\
       (forall c, load c (registry s') = load c hp')).
Proof.
  intros Ht. split_and!.
  - eexists _, _. split; [by apply retire_Ok|].
    rewrite to_delete_at_set_to_delete by done.
    split_and!; try done.
    + intros q. rewrite !list_elem_of_In, filter_In, is_protected_true. done.
    + intros q. rewrite !list_elem_of_In, filter_In, negb_true_iff,
        is_protected_false. done.
    + intros c. apply load_set_to_delete.
    + intros t Hne. by apply to_delete_at_set_to_delete_ne.
  - intros s0 sched l0 ls s' <- Hidle Hsched Hrun Hret.
    destruct (retire_among_threads _ _ _ _ _ _ _ Hidle Hsched Hrun Hret)
      as (_ & Hpend & Hlist & _).
    split_and!; try done.
    + intros q. rewrite Hlist. apply elem_of_kept_of_verdicts.
    + intros q Hq. apply elem_of_swept_of_verdicts in Hq. split; [done|].
      rewrite (run_destroyed _ _ _ _ Hrun). apply elem_of_app. right.
      apply elem_of_freed_of. exists thread_id. by right.
  - intros MaxPointersN threads_n s0 sched l0 ls s' <- Hshape Hidle Hsched
      Hrun Hret Hst.
    by eapply retire_steps_as_retire.
Qed.

Lemma retire_keeps_exactly_the_protected_witness :
  let hp := {| threads_ := [ {| hazard := [7%N]; to_delete := [7%N; 8%N] |};
                             {| hazard := [9%N]; to_delete := [] |} ] |} in
  let s0 := {| registry := hp; sources := fun _ => nullptr;
               destroyed := []; pcs := [Idle; Idle] |} in
  (exists hp' destroyed,
     retire 0 9%N hp = Ok (hp', destroyed) /\
     to_delete_at 0 hp' = [7%N; 9%N] /\ destroyed = [8%N]) /\
  (exists l0 ls s',
     run ((0, CallRetire 9%N) :: replicate 13 (0, Continue)) s0
       = Some (l0 :: ls, s') /\
     to_delete_at 0 (registry s') = [7%N; 9%N] /\
     swept_of (verdicts 0 ls) = [8%N]).
Proof.
  intros hp s0.
  destruct (retire_keeps_exactly_the_protected 0 9%N hp) as
    ((hp' & destroyed & Hr & Hkeep & Hdel & _) & _ & Hsteps); [simpl; lia|].
  split.
  - exists hp', destroyed. split; [exact Hr|]. split; [exact Hkeep|exact Hdel].
  - destruct (run ((0, CallRetire 9%N) :: replicate 13 (0, Continue)) s0)
      as [[[|l0 ls] s']|] eqn:Hrun; try (by vm_compute in Hrun).
    assert (Hret : pcs s' !! 0 = Some Idle)
      by (vm_compute in Hrun; by injection Hrun as _ _ <-).
    assert (Hshape : well_shaped 1 2 s0) by (vm_compute; repeat constructor).
    assert (Hidle : pcs s0 !! 0 = Some Idle) by reflexivity.
    assert (Hsched : Forall (fun x : nat * action => x.1 = 0 -> x.2 = Continue)
                            (replicate 13 (0, Continue)))
      by (by apply Forall_replicate).
    assert (Hst : forall t c v, Stored t c v ∉ ls).
    { vm_compute in Hrun. injection Hrun as _ <- _. intros t c v Hin.
      repeat (apply elem_of_cons in Hin as [Heq|Hin]; [discriminate|]).
      by apply elem_of_nil in Hin. }
    destruct (Hsteps 1 2 s0 _ l0 ls s' eq_refl Hshape Hidle Hsched Hrun Hret Hst)
      as (hp'' & destroyed' & Hr' & Hlist & Hswept & _).
    rewrite Hr in Hr'. injection Hr' as <- <-.
    exists l0, ls, s'. split; [done|]. split.
    + by rewrite Hlist.
    + by rewrite Hswept.
Defined.

(** * Further properties of the registry *)

(** ** What a store does to the cells *)

Lemma load_store_same c v hp :
  load c (store c v hp) = (fun _ => v) <$> load c hp.
Proof.
  destruct c as [i j]. unfold load, store. simpl.
  rewrite list_lookup_alter_eq.
  destruct (threads_ hp !! i) as [data|]; simpl; [|done].
  destruct (hazard data !! j) eqn:Hj; simpl.
  - apply list_lookup_insert_eq. by eapply lookup_lt_Some.
  - apply lookup_ge_None. rewrite length_insert. by apply lookup_ge_None.
Qed.

Lemma is_protected_after_store_iff c v q hp :
  is_protected q (store c v hp) = true <->
  (valid_cell c hp /\ v = q) \/ (exists c', c' <> c /\ load c' hp = Some q).
Proof.
  rewrite is_protected_true. split.
  - intros [c' Hc']. destruct (decide (c' = c)) as [->|Hne].
    + left. rewrite load_store_same in Hc'. unfold valid_cell.
      destruct (load c hp); simplify_eq/=. eauto.
    + right. exists c'. split; [done|]. by rewrite load_store_ne in Hc'.
  - intros [[Hv ->]|(c' & Hne & Hc')].
    + exists c. by apply load_store_eq.
    + exists c'. by rewrite load_store_ne.
Qed.

(** X1: what a store into one cell does to [is_protected].  After [c] is
    overwritten with [v] (the store of [do_protect] and of [do_clear]), a
    pointer [q] counts as protected exactly when [c] exists and [v] is [q],
    or some other cell held [q] already: the only protection a store can
    take away is the one its own cell gave. *)
Theorem is_protected_after_store c v q hp :
  is_protected q (store c v hp) = true <->
  (valid_cell c hp /\ v = q) \/ (exists c', c' <> c /\ load c' hp = Some q).
Proof. apply is_protected_after_store_iff. Qed.

Lemma is_protected_after_store_witness :
  let hp := {| threads_ := [ {| hazard := [7%N; 0%N]; to_delete := [] |} ] |} in
  is_protected 7%N (store (0, 1) 9%N hp) = true /\
  is_protected 7%N (store (0, 0) 9%N hp) = false.
Proof.
  intros hp. split.
  - apply (is_protected_after_store (0, 1) 9%N 7%N hp). right.
    exists (0, 0). split; [discriminate|reflexivity].
  - apply not_true_iff_false. intros H.
    apply (is_protected_after_store (0, 0) 9%N 7%N hp) in H
      as [[_ H]|(c' & Hne & Hc')]; [discriminate|].
    destruct c' as [[|i] [|[|j]]]; try discriminate. done.
Defined.

(** ** All the pending entries *)

Lemma to_delete_size_unsafe_all_pending hp :
  to_delete_size_unsafe hp = length (all_pending hp).
Proof.
  unfold to_delete_size_unsafe, all_pending.
  assert (H : forall l acc,
             foldl (fun res thread => res + length (to_delete thread)) acc l
             = acc + length (concat (to_delete <$> l))).
  { induction l as [|d l IH]; intros acc; csimpl; [lia|].
    rewrite IH, length_app. lia. }
  by rewrite H.
Qed.

Lemma all_pending_store c v hp : all_pending (store c v hp) = all_pending hp.
Proof.
  unfold all_pending, store. simpl. f_equal.
  apply list_eq. intros i. rewrite !list_lookup_fmap, list_lookup_alter.
  case_decide; subst; [|done]. by destruct (threads_ hp !! c.1).
Qed.

Lemma all_pending_set_to_delete t v hp :
  t < length (threads_ hp) ->
  all_pending (set_to_delete t v hp) ++ to_delete_at t hp ≡ₚ all_pending hp ++ v.
Proof.
  unfold all_pending, set_to_delete, to_delete_at. simpl.
  generalize (threads_ hp). intros l. revert t.
  induction l as [|d l IH]; intros [|t] Ht; csimpl in *; try lia.
  - rewrite (Permutation_app_comm (v ++ _) (to_delete d)), <- app_assoc.
    apply Permutation_app_head, Permutation_app_comm.
  - rewrite <- !app_assoc. apply Permutation_app_head.
    apply IH. lia.
Qed.

(** ** What [do_protect] leaves alone *)

Lemma do_protect_loop_frame fuel :
  forall hazard_ptr to_protect k saved hp log p hp' log',
    do_protect_loop fuel hazard_ptr to_protect k saved hp log = Some (p, hp', log') ->
    (forall c, c <> hazard_ptr -> load c hp' = load c hp) /\
    (forall v, store hazard_ptr v hp' = store hazard_ptr v hp) /\
    all_pending hp' = all_pending hp /\
    length (threads_ hp') = length (threads_ hp) /\
    (forall c v, HazardStore c v ∈ log' -> HazardStore c v ∈ log \/ c = hazard_ptr).
Proof.
  induction fuel as [|fuel IH]; intros c0 src k saved hp log p hp' log' Hrun;
    simpl in Hrun; [done|].
  destruct (ptr_eqb (src k) saved); simpl in Hrun.
  - injection Hrun as <- <- <-. split_and!; try done.
    intros c v Hin. apply elem_of_app in Hin as [Hin|Hin]; [by left|].
    apply list_elem_of_singleton in Hin. done.
  - destruct (IH _ _ _ _ _ _ _ _ _ Hrun) as (H1 & H2 & H3 & H4 & H5).
    split_and!.
    + intros c Hne. rewrite H1 by done. by apply load_store_ne.
    + intros v. by rewrite H2, store_store.
    + by rewrite H3, all_pending_store.
    + by rewrite H4, length_store.
    + intros c v Hin. apply H5 in Hin as [Hin|Hin]; [|by right].
      apply elem_of_app in Hin as [Hin|Hin]; [by left|].
      apply elem_of_cons in Hin as [Hin|Hin]; [done|].
      apply list_elem_of_singleton in Hin. injection Hin as -> _. by right.
Qed.

Lemma protect_frame_lemma fuel h to_protect hp p hp' log :
  Holder_protect fuel h to_protect hp = Some (p, hp', log) ->
  all_pending hp' = all_pending hp /\
  length (threads_ hp') = length (threads_ hp).
Proof.
  intros Hrun. unfold Holder_protect, do_protect in Hrun.
  by destruct (do_protect_loop_frame _ _ _ _ _ _ _ _ _ _ Hrun) as (_ & _ & H3 & H4 & _).
Qed.



(** X3: a protection leaves no trace once it is cleared.  Clearing after
    [protect] gives the registry that clearing alone gives, so when the
    cell was null before, [protect] followed by the destructor of the
    [Holder] restores the registry as it was. *)
Theorem protect_then_clear_leaves_no_trace fuel h to_protect hp p hp' log :
  Holder_protect fuel h to_protect hp = Some (p, hp', log) ->
  Holder_clear h hp' = Holder_clear h hp /\
  (load (hazard_ptr_ h) hp = Some nullptr -> Holder_dtor h hp' = hp).
Proof.
  intros Hrun. unfold Holder_protect, do_protect in Hrun.
  destruct (do_protect_loop_frame _ _ _ _ _ _ _ _ _ _ Hrun) as (_ & H2 & _).
  unfold Holder_dtor, Holder_clear. rewrite H2. split; [done|].
  apply store_same.
Qed.

Lemma protect_then_clear_leaves_no_trace_witness :
  let hp := {| threads_ := [ {| hazard := [0%N]; to_delete := [4%N] |} ] |} in
  exists hp',
    Holder_protect 2 (mkHolder (0, 0)) (fun _ => 5%N) hp
      = Some (5%N, hp', [SourceLoad 5%N; HazardStore (0, 0) 5%N; SourceLoad 5%N]) /\
    load (0, 0) hp' = Some 5%N /\
    Holder_dtor (mkHolder (0, 0)) hp' = hp.
Proof.
  intros hp. eexists. split; [reflexivity|]. split; [reflexivity|].
  apply (protect_then_clear_leaves_no_trace 2 (mkHolder (0, 0)) (fun _ => 5%N) hp
           _ _ _ eq_refl).
  reflexivity.
Defined.

(** ** [protect] and [retire] together *)

(** X4: what [protect] returned survives a [retire].  After a [protect]
    on an existing cell returned a non-null [p], a [retire] by any in-range
    thread returns, does not destroy [p], keeps [p] in its list when [p]
    was pending there, and leaves the cell holding [p]. *)
Theorem protected_pointer_survives_retire
    fuel h to_protect hp p hp1 log thread_id q :
  valid_cell (hazard_ptr_ h) hp ->
  Holder_protect fuel h to_protect hp = Some (p, hp1, log) ->
  p <> nullptr ->
  thread_id < length (threads_ hp) ->
  exists hp2 destroyed,
    retire thread_id q hp1 = Ok (hp2, destroyed) /\
    (p ∉ destroyed) /\
    (p ∈ pending thread_id q hp1 -> p ∈ to_delete_at thread_id hp2) /\
    load (hazard_ptr_ h) hp2 = Some p.
Proof.
  intros Hv Hrun Hp Ht.
  assert (Hpub : load (hazard_ptr_ h) hp1 = Some p)
    by (by eapply do_protect_publishes).
  assert (Hprot : is_protected p hp1 = true)
    by (apply is_protected_true; eauto).
  assert (Ht1 : thread_id < length (threads_ hp1)).
  { destruct (protect_frame_lemma _ _ _ _ _ _ _ Hrun) as (_ & Hlen). by rewrite Hlen. }
  eexists _, _. split; [by apply retire_Ok|]. split_and!.
  - rewrite list_elem_of_In, filter_In, Hprot. by intros [_ ?].
  - intros Hin. rewrite to_delete_at_set_to_delete by done.
    apply list_elem_of_In, filter_In. split; [by apply list_elem_of_In|done].
  - by rewrite load_set_to_delete.
Qed.

Lemma protected_pointer_survives_retire_witness :
  let hp := {| threads_ := [ {| hazard := [0%N]; to_delete := [8%N] |} ] |} in
  exists hp1 hp2 destroyed,
    Holder_protect 2 (mkHolder (0, 0)) (fun _ => 5%N) hp
      = Some (5%N, hp1, [SourceLoad 5%N; HazardStore (0, 0) 5%N; SourceLoad 5%N]) /\
    retire 0 5%N hp1 = Ok (hp2, destroyed) /\
    (5%N ∉ destroyed) /\ 5%N ∈ to_delete_at 0 hp2.
Proof.
  intros hp. eexists.
  assert (Hv : valid_cell (hazard_ptr_ (mkHolder (0, 0))) hp) by (vm_compute; eauto).
  assert (Hp : 5%N <> nullptr) by discriminate.
  assert (Ht : 0 < length (threads_ hp)) by (simpl; lia).
  destruct (protected_pointer_survives_retire 2 (mkHolder (0, 0)) (fun _ => 5%N) hp
              _ _ _ 0 5%N Hv eq_refl Hp Ht) as (hp2 & d & Hr & Hnd & Hin & _).
  exists hp2, d. split_and!; try done.
  apply Hin. vm_compute. apply list_elem_of_In. simpl. auto.
Defined.

(** ** Sweeps *)

Lemma filter_filter_same {A : Type} (f : A -> bool) (l : list A) :
  List.filter f (List.filter f l) = List.filter f l.
Proof.
  induction l as [|x l IH]; simpl; [done|].
  destruct (f x) eqn:Hx; simpl; by rewrite ?Hx, IH.
Qed.

Lemma filter_filter_negb {A : Type} (f : A -> bool) (l : list A) :
  List.filter (fun x => negb (f x)) (List.filter f l) = [].
Proof.
  induction l as [|x l IH]; simpl; [done|].
  destruct (f x) eqn:Hx; simpl; by rewrite ?Hx, ?IH.
Qed.

Lemma pending_null thread_id hp :
  pending thread_id nullptr hp = to_delete_at thread_id hp.
Proof. unfold pending. simpl. apply app_nil_r. Qed.

(** X5: a second sweep finds nothing to do.  In the registry a [retire]
    leaves behind, [retire] with a null pointer by the same thread destroys
    nothing and changes nothing, and every entry still in that thread's
    list is held by some hazard cell. *)
Theorem second_sweep_changes_nothing thread_id p hp hp' destroyed :
  retire thread_id p hp = Ok (hp', destroyed) ->
  retire thread_id nullptr hp' = Ok (hp', []) /\
  (forall q, q ∈ to_delete_at thread_id hp' -> is_protected q hp' = true).
Proof.
  intros Hr.
  assert (Ht : thread_id < length (threads_ hp)).
  { destruct (decide (thread_id < length (threads_ hp))); [done|].
    unfold retire in Hr. by rewrite bool_decide_eq_false_2, CHECK_false in Hr. }
  rewrite retire_Ok in Hr by done. injection Hr as <- <-.
  split.
  - rewrite retire_Ok by (by rewrite length_set_to_delete).
    rewrite pending_null, to_delete_at_set_to_delete by done.
    rewrite filter_protected_set_to_delete, filter_unprotected_set_to_delete.
    by rewrite filter_filter_same, filter_filter_negb, set_to_delete_twice.
  - intros q. rewrite to_delete_at_set_to_delete by done.
    rewrite list_elem_of_In, filter_In, is_protected_set_to_delete. by intros [_ ?].
Qed.

Lemma second_sweep_changes_nothing_witness :
  let hp := {| threads_ := [ {| hazard := [7%N]; to_delete := [7%N; 8%N] |} ] |} in
  let hp' := {| threads_ := [ {| hazard := [7%N]; to_delete := [7%N] |} ] |} in
  retire 0 9%N hp = Ok (hp', [8%N; 9%N]) /\
  retire 0 nullptr hp' = Ok (hp', []).
Proof.
  intros hp hp'.
  assert (Hr : retire 0 9%N hp = Ok (hp', [8%N; 9%N])).
  { rewrite retire_Ok by (simpl; lia). reflexivity. }
  split; [exact Hr|].
  exact (proj1 (second_sweep_changes_nothing 0 9%N hp hp' _ Hr)).
Defined.

(** X6: clearing the last cell that holds a pointer lets the next
    [retire] reclaim it.  When a non-null [p] is pending for an in-range
    thread and no cell other than [c] holds it, [retire] after
    [do_clear c] destroys [p] and drops it from the list. *)
Theorem clear_then_retire_reclaims thread_id c p q hp :
  thread_id < length (threads_ hp) ->
  p <> nullptr ->
  p ∈ pending thread_id q hp ->
  (forall c', c' <> c -> load c' hp <> Some p) ->
  exists hp' destroyed,
    retire thread_id q (do_clear c hp) = Ok (hp', destroyed) /\
    p ∈ destroyed /\
    p ∉ to_delete_at thread_id hp'.
Proof.
  intros Ht Hp Hin Hother.
  assert (Hun : is_protected p (do_clear c hp) = false).
  { apply not_true_iff_false. unfold do_clear.
    rewrite is_protected_after_store_iff. intros [[_ Heq]|(c' & Hne & Hc')].
    - by apply Hp.
    - by apply (Hother c'). }
  assert (Hpend : pending thread_id q (do_clear c hp) = pending thread_id q hp).
  { unfold pending, do_clear. by rewrite to_delete_at_store. }
  eexists _, _. split; [apply retire_Ok; unfold do_clear; by rewrite length_store|].
  rewrite Hpend. split.
  - apply list_elem_of_In, filter_In. split; [by apply list_elem_of_In|by rewrite Hun].
  - rewrite to_delete_at_set_to_delete by (unfold do_clear; by rewrite length_store).
    rewrite list_elem_of_In, filter_In, Hun. by intros [_ ?].
Qed.

Lemma clear_then_retire_reclaims_witness :
  let hp := {| threads_ := [ {| hazard := [7%N]; to_delete := [7%N] |} ] |} in
  exists hp' destroyed,
    retire 0 nullptr (do_clear (0, 0) hp) = Ok (hp', destroyed) /\
    7%N ∈ destroyed /\ 7%N ∉ to_delete_at 0 hp'.
Proof.
  intros hp.
  apply (clear_then_retire_reclaims 0 (0, 0) 7%N nullptr hp).
  - simpl. lia.
  - discriminate.
  - vm_compute. apply list_elem_of_In. simpl. auto.
  - intros [[|i] [|j]] Hne; vm_compute; try discriminate. done.
Defined.

Lemma set_to_delete_comm t1 t2 v1 v2 hp :
  t1 <> t2 ->
  set_to_delete t1 v1 (set_to_delete t2 v2 hp) =
  set_to_delete t2 v2 (set_to_delete t1 v1 hp).
Proof.
  intros Hne. unfold set_to_delete. simpl. f_equal.
  by apply list_alter_alter_ne.
Qed.

Lemma pending_set_to_delete_ne t t' v q hp :
  t <> t' -> pending t' q (set_to_delete t v hp) = pending t' q hp.
Proof. intros Hne. unfold pending. by rewrite to_delete_at_set_to_delete_ne. Qed.

(** X7: the [retire] calls of two different in-range threads commute.
    In either order both return, each destroys the same pointers, and the
    registry at the end is the same: a sweep reads the cells and touches
    only the list of its own thread. *)
Theorem retire_commutes_across_threads t1 t2 p q hp :
  t1 <> t2 ->
  t1 < length (threads_ hp) ->
  t2 < length (threads_ hp) ->
  exists hp' d1 d2 hpA hpB,
    retire t1 p hp = Ok (hpA, d1) /\ retire t2 q hpA = Ok (hp', d2) /\
    retire t2 q hp = Ok (hpB, d2) /\ retire t1 p hpB = Ok (hp', d1).
Proof.
  intros Hne H1 H2. eexists _, _, _, _, _. split_and!.
  - by apply retire_Ok.
  - rewrite retire_Ok by (by rewrite length_set_to_delete).
    rewrite pending_set_to_delete_ne by done.
    by rewrite filter_protected_set_to_delete, filter_unprotected_set_to_delete.
  - by apply retire_Ok.
  - rewrite retire_Ok by (by rewrite length_set_to_delete).
    rewrite pending_set_to_delete_ne by done.
    rewrite filter_protected_set_to_delete, filter_unprotected_set_to_delete.
    by rewrite set_to_delete_comm.
Qed.

Lemma retire_commutes_across_threads_witness :
  let hp := {| threads_ := [ {| hazard := [7%N]; to_delete := [7%N; 8%N] |};
                             {| hazard := [0%N]; to_delete := [6%N] |} ] |} in
  exists hp' hpA hpB,
    retire 0 nullptr hp = Ok (hpA, [8%N]) /\ retire 1 7%N hpA = Ok (hp', [6%N]) /\
    retire 1 7%N hp = Ok (hpB, [6%N]) /\ retire 0 nullptr hpB = Ok (hp', [8%N]).
Proof.
  intros hp.
  destruct (retire_commutes_across_threads 0 1 nullptr 7%N hp)
    as (hp' & d1 & d2 & hpA & hpB & HA1 & HA2 & HB1 & HB2);
    [discriminate|simpl; lia|simpl; lia|].
  assert (Hd1 : d1 = [8%N]).
  { rewrite retire_Ok in HA1 by (simpl; lia). by injection HA1 as _ <-. }
  assert (Hd2 : d2 = [6%N]).
  { rewrite retire_Ok in HB1 by (simpl; lia). by injection HB1 as _ <-. }
  subst. by exists hp', hpA, hpB.
Defined.

(** ** The shape of the registry *)

Lemma do_protect_loop_hazard_lengths (MaxPointersN : nat) fuel :
  forall hazard_ptr to_protect k saved hp log p hp' log',
    do_protect_loop fuel hazard_ptr to_protect k saved hp log = Some (p, hp', log') ->
    Forall (fun data => length (hazard data) = MaxPointersN) (threads_ hp) ->
    Forall (fun data => length (hazard data) = MaxPointersN) (threads_ hp').
Proof.
  induction fuel as [|fuel IH]; intros c src k saved hp log p hp' log' Hrun Hm;
    simpl in Hrun; [done|].
  destruct (ptr_eqb (src k) saved); simpl in Hrun.
  - by injection Hrun as <- <- <-.
  - eapply IH; [exact Hrun|]. by apply shape_store.
Qed.

Lemma perform_keeps_shape (MaxPointersN threads_n : nat) o hp hp' :
  perform o hp = Some hp' ->
  length (threads_ hp) = threads_n /\
  Forall (fun data => length (hazard data) = MaxPointersN) (threads_ hp) ->
  length (threads_ hp') = threads_n /\
  Forall (fun data => length (hazard data) = MaxPointersN) (threads_ hp').
Proof.
  intros Hrun [Hn Hm].
  destruct o as [t p|fuel t pos src|t pos|fuel h src|h|]; simpl in Hrun.
  - destruct (retire t p hp) as [[hp1 d]| |] eqn:Hr; try done.
    injection Hrun as <-.
    assert (Ht : t < length (threads_ hp)).
    { destruct (decide (t < length (threads_ hp))); [done|].
      unfold retire in Hr. by rewrite bool_decide_eq_false_2, CHECK_false in Hr. }
    rewrite retire_Ok in Hr by done. injection Hr as <- _.
    rewrite length_set_to_delete. split; [done|]. by apply shape_set_to_delete.
  - unfold protect in Hrun.
    destruct (get_hazard_ptr t pos hp) as [c| |]; try done. simpl in Hrun.
    destruct (do_protect fuel c src hp) as [[[v hp1] log]|] eqn:Hp; try done.
    injection Hrun as <-. unfold do_protect in Hp. split.
    + destruct (do_protect_loop_frame _ _ _ _ _ _ _ _ _ _ Hp) as (_ & _ & _ & H4 & _).
      by rewrite H4.
    + by eapply do_protect_loop_hazard_lengths.
  - unfold clear in Hrun.
    destruct (get_hazard_ptr t pos hp) as [c| |]; try done. simpl in Hrun.
    injection Hrun as <-. unfold do_clear. rewrite length_store.
    split; [done|]. by apply shape_store.
  - destruct (Holder_protect fuel h src hp) as [[[v hp1] log]|] eqn:Hp; try done.
    injection Hrun as <-. unfold Holder_protect, do_protect in Hp. split.
    + destruct (do_protect_loop_frame _ _ _ _ _ _ _ _ _ _ Hp) as (_ & _ & _ & H4 & _).
      by rewrite H4.
    + by eapply do_protect_loop_hazard_lengths.
  - injection Hrun as <-. unfold Holder_clear. rewrite length_store.
    split; [done|]. by apply shape_store.
  - by injection Hrun as <-.
Qed.

Lemma perform_all_keeps_shape (MaxPointersN threads_n : nat) ops :
  forall hp hp',
    perform_all ops hp = Some hp' ->
    length (threads_ hp) = threads_n /\
    Forall (fun data => length (hazard data) = MaxPointersN) (threads_ hp) ->
    length (threads_ hp') = threads_n /\
    Forall (fun data => length (hazard data) = MaxPointersN) (threads_ hp').
Proof.
  induction ops as [|o ops IH]; intros hp hp' Hrun Hshape; simpl in Hrun.
  - by injection Hrun as <-.
  - destruct (perform o hp) as [hp1|] eqn:Ho; [|done].
    eapply IH; [exact Hrun|]. by eapply perform_keeps_shape.
Qed.

Lemma get_holder_by_shape (MaxPointersN threads_n : nat) hp thread_id pos :
  length (threads_ hp) = threads_n ->
  Forall (fun data => length (hazard data) = MaxPointersN) (threads_ hp) ->
  (get_holder thread_id pos hp = Ok (mkHolder (thread_id, pos)) <->
     thread_id < threads_n /\ pos < MaxPointersN) /\
  (get_holder thread_id pos hp = OutOfBounds <->
     thread_id < threads_n /\ MaxPointersN <= pos).
Proof.
  intros Hn Hm. unfold get_holder, get_hazard_ptr, load. simpl.
  destruct (decide (thread_id < length (threads_ hp))) as [Hlt|Hge].
  - rewrite bool_decide_eq_true_2, CHECK_true by done.
    destruct (lookup_lt_is_Some_2 _ _ Hlt) as [data Hd]. rewrite Hd.
    rewrite Forall_lookup in Hm. specialize (Hm _ _ Hd).
    destruct (hazard data !! pos) eqn:Hp; simpl.
    + apply lookup_lt_Some in Hp. split; split; (done || lia).
    + apply lookup_ge_None in Hp. split; split; try done; lia.
  - rewrite bool_decide_eq_false_2, CHECK_false by done.
    split; split; try done; lia.
Qed.

(** X8: the shape of the registry never changes.  After any sequence of
    [retire], [protect], [clear] and [to_delete_size_unsafe] calls that
    return, there are still [threads_n] threads with [MaxPointersN] cells
    each; [get_holder] gives the holder of the cell asked for exactly when
    both indices are in range, and reads past the cells of an in-range
    thread exactly when the slot index is not. *)
Theorem registry_shape_is_fixed
    (MaxPointersN threads_n : nat) (garbage : nat -> nat -> ptr)
    (ops : list operation) (hp : HazardPointers) :
  perform_all ops (HazardPointers_ctor MaxPointersN garbage threads_n) = Some hp ->
  length (threads_ hp) = threads_n /\
  Forall (fun data => length (hazard data) = MaxPointersN) (threads_ hp) /\
  (forall thread_id pos,
     (get_holder thread_id pos hp = Ok (mkHolder (thread_id, pos)) <->
        thread_id < threads_n /\ pos < MaxPointersN) /\
     (get_holder thread_id pos hp = OutOfBounds <->
        thread_id < threads_n /\ MaxPointersN <= pos)).
Proof.
  intros Hrun.
  destruct (perform_all_keeps_shape MaxPointersN threads_n _ _ _ Hrun) as [Hn Hm].
  { rewrite ctor_threads, length_replicate. split; [done|].
    apply Forall_replicate. simpl. apply length_replicate. }
  split_and!; try done.
  intros thread_id pos. by apply get_holder_by_shape.
Qed.

Lemma registry_shape_is_fixed_witness :
  let hp := {| threads_ := [ {| hazard := [0%N]; to_delete := [7%N] |};
                             {| hazard := [0%N]; to_delete := [] |} ] |} in
  perform_all [OpProtect 2 1 0 (fun _ => 7%N); OpRetire 0 7%N; OpClear 1 0]
    (HazardPointers_ctor 1 (fun _ _ => 9%N) 2) = Some hp /\
  length (threads_ hp) = 2 /\
  get_holder 1 0 hp = Ok (mkHolder (1, 0)) /\
  get_holder 1 1 hp = OutOfBounds.
Proof.
  intros hp.
  assert (Hrun : perform_all
                   [OpProtect 2 1 0 (fun _ => 7%N); OpRetire 0 7%N; OpClear 1 0]
                   (HazardPointers_ctor 1 (fun _ _ => 9%N) 2) = Some hp)
    by reflexivity.
  split; [exact Hrun|].
  destruct (registry_shape_is_fixed 1 2 (fun _ _ => 9%N) _ hp Hrun)
    as (Hn & _ & Hg).
  split; [exact Hn|]. split.
  - apply (Hg 1 0). lia.
  - apply (Hg 1 1). lia.
Defined.

(** ** Nothing retired is lost *)

Lemma step_entries_in_place t a s l s' :
  entries_in_place s -> step t a s = Some (l, s') -> entries_in_place s'.
Proof.
  intros Hinv Hs t0 it0 p0 i0 j0 Hpc.
  destruct (decide (t0 = t)) as [->|Hne].
  - step_cases Hs; state_simpl;
      try rewrite list_lookup_insert_eq in Hpc by (by eapply lookup_lt_Some);
      simplify_eq; try done; try (by eapply Hinv).
  - rewrite (step_pcs_other _ _ _ _ _ _ Hs Hne) in Hpc.
    rewrite (step_to_delete_other _ _ _ _ _ _ Hs Hne). by eapply Hinv.
Qed.

Lemma CHECK_Ok (P : Prop) `{Decision P} (u : unit) :
  CHECK (bool_decide P) = Ok u -> P.
Proof. unfold CHECK. case_bool_decide; [done|discriminate]. Qed.

Lemma step_conserves t a s l s' :
  entries_in_place s ->
  step t a s = Some (l, s') ->
  destroyed s' ++ all_pending (registry s')
    ≡ₚ (destroyed s ++ all_pending (registry s)) ++ retired_of [(t, a)].
Proof.
  intros Hinv Hs.
  step_cases Hs; state_simpl; unfold do_clear, retired_of; simpl;
    rewrite ?all_pending_store, ?app_nil_r; try done.
  - (* retire appends a pointer *)
    rewrite H3. simpl. rewrite <- app_assoc. apply Permutation_app_head.
    apply (Permutation_app_inv_r (to_delete_at t (registry s))).
    rewrite all_pending_set_to_delete by (by eapply CHECK_Ok).
    rewrite <- !app_assoc. apply Permutation_app_head.
    apply Permutation_app_comm.
  - rewrite H3. simpl. by rewrite app_nil_r.
  - (* an entry is destroyed and erased *)
    pose proof (Hinv _ _ _ _ _ H0) as Hit.
    rewrite <- !app_assoc. apply Permutation_app_head. simpl.
    apply (Permutation_app_inv_r (to_delete_at t (registry s))).
    assert (Ht : t < length (threads_ (registry s))).
    { apply to_delete_at_nonempty. intros Hnil. by rewrite Hnil in Hit. }
    simpl. rewrite (all_pending_set_to_delete _ _ _ Ht).
    rewrite Permutation_middle. apply Permutation_app_head.
    rewrite delete_take_drop.
    rewrite <- (take_drop_middle _ _ _ Hit) at 3.
    by rewrite Permutation_middle.
Qed.

Lemma retired_of_cons x sched :
  retired_of (x :: sched) = retired_of [x] ++ retired_of sched.
Proof. unfold retired_of. simpl. by destruct (match x.2 with CallRetire p => _ | _ => _ end). Qed.

Lemma run_conserves sched :
  forall s ls s',
    entries_in_place s ->
    run sched s = Some (ls, s') ->
    destroyed s' ++ all_pending (registry s')
      ≡ₚ (destroyed s ++ all_pending (registry s)) ++ retired_of sched.
Proof.
  induction sched as [|[t a] sched IH]; intros s ls s' Hinv Hrun;
    cbn [run] in Hrun.
  - injection Hrun as <- <-. by rewrite app_nil_r.
  - destruct (step t a s) as [[l s1]|] eqn:Hs; [|done].
    destruct (run sched s1) as [[ls1 s2]|] eqn:Hr; [|done].
    injection Hrun as <- <-.
    rewrite (IH _ _ _ (step_entries_in_place _ _ _ _ _ Hinv Hs) Hr).
    rewrite (step_conserves _ _ _ _ _ Hinv Hs).
    rewrite (retired_of_cons (t, a) sched), <- !app_assoc. reflexivity.
Qed.

Lemma initial_entries_in_place MaxPointersN threads_n garbage srcs :
  entries_in_place (initial MaxPointersN threads_n garbage srcs).
Proof.
  intros t it p i j Hk. unfold initial in Hk. state_simpl.
  apply lookup_replicate in Hk as [? _]. done.
Qed.

Lemma initial_nothing_pending MaxPointersN threads_n garbage srcs :
  destroyed (initial MaxPointersN threads_n garbage srcs) ++
  all_pending (registry (initial MaxPointersN threads_n garbage srcs)) = [].
Proof.
  unfold initial, all_pending. state_simpl. rewrite ctor_threads. simpl.
  induction threads_n as [|n IH]; [done|]. csimpl. exact IH.
Qed.

(** X9: nothing that was retired is lost or made up.  At every point of
    every run from a fresh registry, the pointers destroyed so far together
    with the entries pending in the retirement lists are, up to order, the
    non-null pointers handed to [retire]: only retired pointers are
    destroyed, each at most as often as it was retired, and every retired
    pointer is destroyed or still pending in some thread's list. *)
Theorem retired_is_pending_or_destroyed
    (MaxPointersN threads_n : nat) (garbage : nat -> nat -> ptr)
    (srcs : nat -> ptr) (sched : list (nat * action)) (ls : list label)
    (s : state) :
  run sched (initial MaxPointersN threads_n garbage srcs) = Some (ls, s) ->
  destroyed s ++ all_pending (registry s) ≡ₚ retired_of sched /\
  (forall p, p ∈ destroyed s -> p ∈ retired_of sched) /\
  (forall p, p ∈ retired_of sched ->
             p ∈ destroyed s \/ exists t, p ∈ to_delete_at t (registry s)).
Proof.
  intros Hrun.
  pose proof (run_conserves _ _ _ _
                (initial_entries_in_place _ _ _ _) Hrun) as Hperm.
  rewrite initial_nothing_pending in Hperm. simpl in Hperm.
  split_and!; [done| |].
  - intros p Hp. rewrite <- Hperm. apply elem_of_app. by left.
  - intros p Hp. rewrite <- Hperm in Hp. apply elem_of_app in Hp as [Hp|Hp];
      [by left|right].
    unfold all_pending in Hp.
    apply list_elem_of_In, in_concat in Hp as (l & Hl & Hp).
    apply list_elem_of_In in Hl.
    apply list_elem_of_fmap in Hl as (d & -> & Hd).
    apply list_elem_of_lookup in Hd as [t Ht]. exists t.
    unfold to_delete_at. rewrite Ht. by apply list_elem_of_In.
Qed.

(** X10: [to_delete_size_unsafe] counts what is owed.  At every point of
    every run from a fresh registry, the pending count plus the number of
    pointers destroyed so far is the number of non-null pointers handed to
    [retire]. *)
Theorem pending_count_is_retired_minus_destroyed
    (MaxPointersN threads_n : nat) (garbage : nat -> nat -> ptr)
    (srcs : nat -> ptr) (sched : list (nat * action)) (ls : list label)
    (s : state) :
  run sched (initial MaxPointersN threads_n garbage srcs) = Some (ls, s) ->
  to_delete_size_unsafe (registry s) + length (destroyed s)
    = length (retired_of sched).
Proof.
  intros Hrun.
  pose proof (run_conserves _ _ _ _
                (initial_entries_in_place _ _ _ _) Hrun) as Hperm.
  rewrite initial_nothing_pending in Hperm. simpl in Hperm.
  apply Permutation_length in Hperm. rewrite length_app in Hperm.
  rewrite to_delete_size_unsafe_all_pending. lia.
Qed.

Lemma retired_is_pending_or_destroyed_witness :
  let s0 := initial 1 2 (fun _ _ => 9%N) (fun _ => 5%N) in
  let sched :=
    [(0, CallRetire 7%N); (1, CallRetire 5%N); (1, Continue); (1, Continue);
     (1, Continue); (1, Continue); (1, Continue); (1, Continue)] in
  exists ls s,
    run sched s0 = Some (ls, s) /\
    destroyed s = [5%N] /\
    to_delete_at 0 (registry s) = [7%N] /\
    destroyed s ++ all_pending (registry s) ≡ₚ [7%N; 5%N].
Proof.
  intros s0 sched.
  destruct (run sched s0) as [[ls s]|] eqn:Hrun; [|by vm_compute in Hrun].
  exists ls, s. split; [done|].
  split; [vm_compute in Hrun; by injection Hrun as _ <-|].
  split; [vm_compute in Hrun; by injection Hrun as _ <-|].
  exact (proj1 (retired_is_pending_or_destroyed 1 2 _ _ sched ls s Hrun)).
Defined.

Lemma pending_count_is_retired_minus_destroyed_witness :
  let s0 := initial 1 2 (fun _ _ => 9%N) (fun _ => 5%N) in
  let sched :=
    [(0, CallRetire 7%N); (1, CallRetire 5%N); (1, Continue); (1, Continue);
     (1, Continue); (1, Continue); (1, Continue); (1, Continue)] in
  exists ls s,
    run sched s0 = Some (ls, s) /\
    destroyed s = [5%N] /\
    to_delete_size_unsafe (registry s) + length (destroyed s) = 2.
Proof.
  intros s0 sched.
  destruct (run sched s0) as [[ls s]|] eqn:Hrun; [|by vm_compute in Hrun].
  exists ls, s. split; [done|].
  split; [vm_compute in Hrun; by injection Hrun as _ <-|].
  exact (pending_count_is_retired_minus_destroyed 1 2 _ _ sched ls s Hrun).
Defined.

(** ** Threads leave each other alone *)

Lemma run_leaves_others_alone t sched :
  forall s ls s',
    protects_own_cell s ->
    Forall (fun x : nat * action => x.1 <> t) sched ->
    run sched s = Some (ls, s') ->
    to_delete_at t (registry s') = to_delete_at t (registry s) /\
    pcs s' !! t = pcs s !! t /\
    (forall pos, load (t, pos) (registry s') = load (t, pos) (registry s)).
Proof.
  induction sched as [|[t' a] sched IH]; intros s ls s' Hinv Hsched Hrun;
    cbn [run] in Hrun.
  - by injection Hrun as <- <-.
  - destruct (step t' a s) as [[l s1]|] eqn:Hs; [|done].
    destruct (run sched s1) as [[ls1 s2]|] eqn:Hr; [|done].
    injection Hrun as <- <-.
    inversion Hsched as [|x sched' Hne Hsched']; subst. simpl in Hne.
    destruct (IH _ _ _ (step_protects_own_cell _ _ _ _ _ Hinv Hs) Hsched' Hr)
      as (H1 & H2 & H3).
    split_and!.
    + rewrite H1. by eapply step_to_delete_other.
    + rewrite H2. by eapply step_pcs_other.
    + intros pos. rewrite H3. by eapply step_load_other.
Qed.

(** X11: threads leave each other's data alone.  Along a run from a
    reachable state in which thread [t] takes no step, the retirement list
    of [t], the place where [t] stands and every hazard cell of [t] stay
    as they are, whatever the other threads call. *)
Theorem threads_leave_each_other_alone
    (MaxPointersN threads_n : nat) (garbage : nat -> nat -> ptr)
    (srcs : nat -> ptr) (t : nat)
    (before sched : list (nat * action)) (ls0 ls : list label) (s s' : state) :
  run before (initial MaxPointersN threads_n garbage srcs) = Some (ls0, s) ->
  Forall (fun x : nat * action => x.1 <> t) sched ->
  run sched s = Some (ls, s') ->
  to_delete_at t (registry s') = to_delete_at t (registry s) /\
  pcs s' !! t = pcs s !! t /\
  (forall pos, load (t, pos) (registry s') = load (t, pos) (registry s)).
Proof.
  intros Hbefore Hsched Hrun.
  apply run_reaches in Hbefore as (_ & _ & Hprot).
  by eapply run_leaves_others_alone.
Qed.

Lemma threads_leave_each_other_alone_witness :
  let s0 := initial 1 2 (fun _ _ => 9%N) (fun _ => 5%N) in
  let before :=
    [(0, CallProtect 0 0); (0, Continue); (0, Continue); (0, Continue);
     (0, CallRetire 7%N)] in
  let sched :=
    [(1, CallRetire 5%N); (1, Continue); (1, Continue); (1, Continue);
     (1, CallProtect 0 0); (1, Continue); (1, Continue)] in
  exists ls0 s ls s',
    run before s0 = Some (ls0, s) /\
    run sched s = Some (ls, s') /\
    to_delete_at 0 (registry s') = [7%N] /\
    load (0, 0) (registry s') = Some 5%N.
Proof.
  intros s0 before sched.
  destruct (run before s0) as [[ls0 s]|] eqn:Hr0; [|by vm_compute in Hr0].
  pose proof Hr0 as Hs. vm_compute in Hs. injection Hs as _ Hs.
  destruct (run sched s) as [[ls s']|] eqn:Hr;
    [|rewrite <- Hs in Hr; by vm_compute in Hr].
  assert (Hsched : Forall (fun x : nat * action => x.1 <> 0) sched)
    by (repeat constructor; discriminate).
  destruct (threads_leave_each_other_alone 1 2 _ _ 0 before sched ls0 ls s s'
              Hr0 Hsched Hr) as (H1 & _ & H3).
  exists ls0, s, ls, s'. split_and!; try done.
  - rewrite H1, <- Hs. reflexivity.
  - rewrite H3, <- Hs. reflexivity.
Defined.

(** ** [retire] returns within a bound *)

Lemma scan_offset_bound MaxPointersN threads_n i j :
  i <= threads_n -> j <= MaxPointersN -> (i = threads_n -> j = 0) ->
  i * (MaxPointersN + 1) + j <= threads_n * (MaxPointersN + 1).
Proof.
  intros Hi Hj Hij. destruct (decide (i = threads_n)) as [->|Hne].
  - rewrite Hij by done. lia.
  - assert (Hlt : S i <= threads_n) by lia.
    apply Nat.mul_le_mono_r with (p := MaxPointersN + 1) in Hlt. lia.
Qed.

Lemma budget_first len it B :
  it < len -> (len - it) * B = B + (len - S it) * B.
Proof.
  intros Hlt. replace (len - it) with (S (len - S it)) by lia. simpl. lia.
Qed.

Lemma steps_left_pos MaxPointersN threads_n len k :
  in_retire MaxPointersN threads_n len k -> k <> Idle ->
  0 < steps_left MaxPointersN threads_n len k.
Proof.
  intros Hin Hk. destruct Hin as [|it|it p i j Hit Hi Hj Hij]; [done| |];
    unfold steps_left.
  - rewrite Nat.add_1_r. apply Nat.lt_0_succ.
  - pose proof (scan_offset_bound _ _ _ _ Hi Hj Hij).
    rewrite (budget_first _ _ _ Hit). unfold sweep_budget at 1. lia.
Qed.

(** Arithmetic on [steps_left], the products taken as unknowns. *)
Ltac budget_arith :=
  repeat match goal with
         | |- context [(?a - ?b) * sweep_budget ?M ?n] =>
             generalize ((a - b) * sweep_budget M n); intro
         end;
  unfold sweep_budget; lia.

Lemma step_in_retire MaxPointersN threads_n t s k l s' :
  well_shaped MaxPointersN threads_n s ->
  pcs s !! t = Some k ->
  in_retire MaxPointersN threads_n (length (to_delete_at t (registry s))) k ->
  step t Continue s = Some (l, s') ->
  exists k',
    pcs s' !! t = Some k' /\
    in_retire MaxPointersN threads_n (length (to_delete_at t (registry s'))) k' /\
    steps_left MaxPointersN threads_n (length (to_delete_at t (registry s'))) k'
    < steps_left MaxPointersN threads_n (length (to_delete_at t (registry s))) k.
Proof.
  intros Hshape Hk Hin Hs.
  assert (Ht : t < length (pcs s)) by (by eapply lookup_lt_Some).
  assert (Ht' : t < length (threads_ (registry s)))
    by (destruct Hshape as (-> & _ & <-); done).
  step_cases Hs; state_simpl;
    inversion Hin as [| |it' p' i' j' Hit Hi Hj Hij]; subst.
  all: eexists; (split; [by apply list_lookup_insert_eq|]).
  all: unfold steps_left.
  - match goal with H : _ !! it = Some _ |- _ => apply lookup_lt_Some in H end.
    split; [constructor; lia|]. budget_arith.
  - split; [constructor|]. budget_arith.
  - pose proof (scan_offset_bound _ _ _ _ Hi Hj Hij).
    split; [constructor|].
    rewrite (budget_first _ _ _ Hit). budget_arith.
  - assert (j < MaxPointersN).
    { match goal with
      | H : threads_ _ !! _ = Some _, H' : hazard _ !! _ = Some _ |- _ =>
          destruct (decide (MaxPointersN <= j)) as [Hge|]; [|lia];
          apply (proj2 (shaped_cell_lookup _ _ _ _ _ j Hshape H)) in Hge;
          congruence
      end. }
    match goal with
    | H : threads_ _ !! _ = Some _ |- _ =>
        pose proof (proj1 (shaped_cell_lookup _ _ _ _ _ j Hshape H))
    end.
    pose proof (scan_offset_bound _ _ _ _ Hi Hj Hij).
    split; [constructor; lia|].
    rewrite (budget_first _ _ _ Hit). budget_arith.
  - match goal with
    | H : threads_ _ !! _ = Some _, H' : hazard _ !! _ = None |- _ =>
        pose proof (proj1 (shaped_cell_lookup _ _ _ _ _ j Hshape H));
        apply (proj1 (proj2 (shaped_cell_lookup _ _ _ _ _ j Hshape H))) in H'
    end.
    pose proof (scan_offset_bound _ _ _ _ Hi Hj Hij).
    split; [constructor; lia|].
    rewrite (budget_first _ _ _ Hit). budget_arith.
  - match goal with
    | H : threads_ _ !! _ = None |- _ =>
        apply (shaped_thread_lookup _ _ _ _ Hshape) in H
    end.
    assert (i = threads_n) as -> by lia. rewrite Hij by done.
    rewrite to_delete_at_set_to_delete by done.
    rewrite length_delete by (by apply lookup_lt_is_Some_2).
    split; [constructor|].
    rewrite (budget_first _ _ _ Hit).
    replace (length (to_delete_at t (registry s)) - 1 - it)
      with (length (to_delete_at t (registry s)) - S it) by lia.
    budget_arith.
Qed.

Lemma step_in_retire_other MaxPointersN threads_n t t' a s k l s' :
  pcs s !! t = Some k ->
  in_retire MaxPointersN threads_n (length (to_delete_at t (registry s))) k ->
  step t' a s = Some (l, s') ->
  t' <> t ->
  pcs s' !! t = Some k /\
  to_delete_at t (registry s') = to_delete_at t (registry s).
Proof.
  intros Hk Hin Hs Hne. split.
  - by rewrite (step_pcs_other _ _ _ _ _ _ Hs).
  - by eapply step_to_delete_other.
Qed.

Lemma own_steps_cons t x schedule :
  own_steps t (x :: schedule)
  = (if decide (x.1 = t) then 1 else 0) + own_steps t schedule.
Proof.
  unfold own_steps. rewrite filter_cons. by destruct (decide (x.1 = t)).
Qed.

Lemma run_in_retire MaxPointersN threads_n t sched :
  forall s k ls s',
    well_shaped MaxPointersN threads_n s ->
    pcs s !! t = Some k ->
    in_retire MaxPointersN threads_n (length (to_delete_at t (registry s))) k ->
    Forall (fun x : nat * action => x.1 = t -> x.2 = Continue) sched ->
    run sched s = Some (ls, s') ->
    exists k',
      pcs s' !! t = Some k' /\
      in_retire MaxPointersN threads_n
                (length (to_delete_at t (registry s'))) k' /\
      own_steps t sched
      + steps_left MaxPointersN threads_n
                   (length (to_delete_at t (registry s'))) k'
      <= steps_left MaxPointersN threads_n
                    (length (to_delete_at t (registry s))) k.
Proof.
  induction sched as [|[t' a] sched IH]; intros s k ls s' Hshape Hk Hin Hsched Hrun;
    cbn [run] in Hrun.
  - injection Hrun as <- <-. exists k. split_and!; try done.
  - destruct (step t' a s) as [[l s1]|] eqn:Hs; [|done].
    destruct (run sched s1) as [[ls1 s2]|] eqn:Hr; [|done].
    injection Hrun as <- <-.
    inversion Hsched as [|x sched' Hcont Hsched']; subst. simpl in Hcont.
    pose proof (step_well_shaped _ _ _ _ _ _ _ Hshape Hs) as Hshape1.
    rewrite own_steps_cons. simpl.
    destruct (decide (t' = t)) as [->|Hne].
    + rewrite Hcont in Hs by done.
      destruct (step_in_retire _ _ _ _ _ _ _ Hshape Hk Hin Hs)
        as (k1 & Hk1 & Hin1 & Hlt).
      destruct (IH _ _ _ _ Hshape1 Hk1 Hin1 Hsched' Hr) as (k' & Hk' & Hin' & Hle).
      exists k'. split_and!; try done. lia.
    + destruct (step_in_retire_other _ _ _ _ _ _ _ _ _ Hk Hin Hs Hne)
        as (Hk1 & Hlist).
      rewrite <- Hlist in Hin.
      destruct (IH _ _ _ _ Hshape1 Hk1 Hin Hsched' Hr) as (k' & Hk' & Hin' & Hle).
      exists k'. split_and!; try done. rewrite Hlist in Hle. lia.
Qed.

Lemma retire_step_possible t s k :
  pcs s !! t = Some k ->
  (exists it, k = RetireLoop it) \/ (exists it p i j, k = Scanning it p i j) ->
  is_Some (step t Continue s).
Proof.
  intros Hk [(it & ->)|(it & p & i & j & ->)]; unfold step; rewrite Hk.
  - by destruct (to_delete_at t (registry s) !! it).
  - destruct (threads_ (registry s) !! i) as [thread|]; [|done].
    destruct (hazard thread !! j) as [v|]; [|done].
    by destruct (ptr_eqb v p).
Qed.

(** X12: [retire] is wait-free.  From a reachable state, a thread that
    called [retire] takes at most [sweep_budget] steps for each entry of
    its list, and one more, however the other threads are scheduled and
    whatever they store meanwhile; and as long as the call has not
    returned, the thread is below that bound and its next step can be
    taken. *)
Theorem retire_finishes_in_bounded_steps
    (MaxPointersN threads_n : nat) (garbage : nat -> nat -> ptr)
    (srcs : nat -> ptr) (t : nat) (p : ptr)
    (before sched : list (nat * action)) (ls0 ls : list label) (s s' : state) :
  run before (initial MaxPointersN threads_n garbage srcs) = Some (ls0, s) ->
  run ((t, CallRetire p) :: sched) s = Some (ls, s') ->
  Forall (fun x : nat * action => x.1 = t -> x.2 = Continue) sched ->
  own_steps t sched
  <= length (pending t p (registry s)) * sweep_budget MaxPointersN threads_n + 1 /\
  (pcs s' !! t = Some Idle \/
   (own_steps t sched
    < length (pending t p (registry s)) * sweep_budget MaxPointersN threads_n + 1 /\
    is_Some (step t Continue s'))).
Proof.
  intros Hbefore Hrun Hsched.
  apply run_reaches in Hbefore as (Hshape & _ & _).
  cbn [run] in Hrun.
  destruct (step t (CallRetire p) s) as [[l s1]|] eqn:Hs; [|done].
  destruct (run sched s1) as [[ls1 s2]|] eqn:Hr; [|done].
  injection Hrun as <- <-.
  pose proof (step_well_shaped _ _ _ _ _ _ _ Hshape Hs) as Hshape1.
  assert (Hk1 : pcs s1 !! t = Some (RetireLoop 0) /\
                to_delete_at t (registry s1) = pending t p (registry s)).
  { unfold pending. step_cases Hs; state_simpl.
    all: match goal with
         | H : CHECK _ = Ok _ |- _ => apply CHECK_Ok in H
         end.
    all: match goal with
         | H : pcs _ !! _ = Some _ |- _ => pose proof (lookup_lt_Some _ _ _ H)
         end.
    all: split; [by apply list_lookup_insert_eq|].
    - by rewrite to_delete_at_set_to_delete.
    - by rewrite app_nil_r. }
  destruct Hk1 as (Hk1 & Hlist).
  destruct (run_in_retire MaxPointersN threads_n t sched s1 (RetireLoop 0) ls1 s2
              Hshape1 Hk1 (in_retire_loop _ _ _ 0) Hsched Hr)
    as (k' & Hk' & Hin' & Hle).
  rewrite Hlist in Hle. unfold steps_left at 2 in Hle.
  rewrite Nat.sub_0_r in Hle.
  split; [lia|].
  assert (Hcases : k' = Idle \/ k' <> Idle)
    by (destruct k'; auto; by right).
  destruct Hcases as [->|Hne]; [by left|right].
  pose proof (steps_left_pos _ _ _ _ Hin' Hne).
  split; [lia|].
  apply (retire_step_possible _ _ _ Hk').
  destruct Hin'; [done|left|right]; eauto.
Qed.

Lemma retire_finishes_in_bounded_steps_witness :
  let s0 := initial 2 2 (fun _ _ => 9%N) (fun _ => 6%N) in
  let sched :=
    [(0, Continue); (1, CallProtect 0 0); (0, Continue); (1, Continue);
     (0, Continue); (1, Continue); (0, Continue); (0, Continue);
     (1, Continue); (0, Continue); (0, Continue); (0, Continue);
     (1, CallRetire 8%N); (0, Continue); (1, Continue)] in
  exists ls s',
    run ((0, CallRetire 5%N) :: sched) s0 = Some (ls, s') /\
    own_steps 0 sched = 9 /\
    own_steps 0 sched
    <= length (pending 0 5%N (registry s0)) * sweep_budget 2 2 + 1 /\
    pcs s' !! 0 = Some Idle.
Proof.
  intros s0 sched.
  destruct (run ((0, CallRetire 5%N) :: sched) s0) as [[ls s']|] eqn:Hrun;
    [|by vm_compute in Hrun].
  assert (Hsched : Forall (fun x : nat * action => x.1 = 0 -> x.2 = Continue) sched)
    by (repeat constructor; simpl; (done || discriminate)).
  exists ls, s'. split; [done|]. split; [reflexivity|].
  split.
  - exact (proj1 (retire_finishes_in_bounded_steps 2 2 _ _ 0 5%N [] sched [] ls
                    s0 s' eq_refl Hrun Hsched)).
  - vm_compute in Hrun. by injection Hrun as _ <-.
Defined.
